(** * Nagel-Schreckenberg traffic simulator: the engine and its drivers

    A shallow embedding of [agents.py] (class [Car]), [environment.py]
    (class [Road]) and [simulation.py] ([run_simulation],
    [experiment_density_scan]), followed by the properties of the
    specification that concern them.

    Conventions of the embedding.
    - Python integers are [Z]; [%] on integers is [Z.modulo] (the sign of
      the result follows the divisor, as in Python) and raises
      [ZeroDivisionError] on a zero divisor.
    - Python floats are rationals ([Q]) extended with a not-a-number
      value.  Where an integer is taken from a float, in
      [int(density * road_length)], the arithmetic is binary64: the
      operands and the product are rounded to the nearest value with a
      53-bit significand, ties to even ([binary64]).  Elsewhere, in the
      averages of the histories, the arithmetic is idealised as exact.
    - The process-wide generator of [numpy.random] is an explicit state
      threaded through every computation that draws from it; what numpy
      does with that state is an interface ([NumPy]) with the documented
      contract ([NumPyContract]).
    - An exception aborts the computation: computations live in a state
      and error monad [M]. *)

From Stdlib Require Import ZArith QArith Qround Qabs List Lia Bool Permutation Sorted.
Import ListNotations.
Open Scope Z_scope.

(** ** Python values, exceptions and the monad of computations *)

Inductive exn : Type :=
| ZeroDivisionError
| ValueError
| OverflowError.

Inductive result (A : Type) : Type :=
| Ok (a : A)
| Raise (e : exn).
Arguments Ok {A} a.
Arguments Raise {A} e.

(** A binary64 value, up to rounding: a rational or NaN. *)
Inductive npfloat : Type :=
| Fin (q : Q)
| NaN.

Definition float_of_int (n : Z) : npfloat := Fin (inject_Z n).

Definition fadd (x y : npfloat) : npfloat :=
  match x, y with
  | Fin a, Fin b => Fin (a + b)%Q
  | _, _ => NaN
  end.

Definition fmul (x y : npfloat) : npfloat :=
  match x, y with
  | Fin a, Fin b => Fin (a * b)%Q
  | _, _ => NaN
  end.

(** [x < y] on floats that are not NaN. *)
Definition Qlt_bool (x y : Q) : bool := negb (Qle_bool y x).

(** [a % b] on Python integers. *)
Definition py_mod (a b : Z) : result Z :=
  if b =? 0 then Raise ZeroDivisionError else Ok (a mod b).

(** [a / b] on Python integers (true division, a float). *)
Definition py_truediv (a b : Z) : result npfloat :=
  if b =? 0 then Raise ZeroDivisionError
  else Ok (Fin (inject_Z a / inject_Z b)%Q).

(** [int(x)] on a finite float: truncation toward zero. *)
Definition py_int (x : Q) : Z := Z.quot (Qnum x) (Zpos (Qden x)).

(** To the nearest integer, a half to the even neighbour: Python's [round]
    and the rounding of a binary64 significand. *)
Definition round_half_even (x : Q) : Z :=
  let f := Qfloor x in
  match Qcompare (x - inject_Z f) (1 # 2) with
  | Lt => f
  | Gt => f + 1
  | Eq => if Z.even f then f else f + 1
  end.

(** The exponent of the leading bit of a positive rational: the [k] with
    [2 ^ k <= a < 2 ^ (k + 1)]. *)
Definition floor_log2 (a : Q) : Z :=
  let k := Z.log2 (Qnum a) - Z.log2 (Zpos (Qden a)) in
  if Qle_bool (2 ^ k) a then k else k - 1.

(** The binary64 value nearest to a number, ties to the even significand:
    the float Python holds for a literal, and the result of an operation
    on floats before overflow is looked at.  The significand has 53 bits,
    fewer below [2 ^ -1022], where the spacing stays [2 ^ -1074]. *)
Definition binary64 (x : Q) : Q :=
  let a := Qabs x in
  let e := Z.max (floor_log2 a - 52) (-1074) in
  let m := round_half_even (a / 2 ^ e) in
  Qred ((if Qle_bool 0 x then 1 else -1) * (inject_Z m * 2 ^ e)).

(** A rounded value beyond the largest binary64 is an infinity. *)
Definition overflows (x : Q) : bool := Qle_bool (2 ^ 1024) (Qabs x).

(** An integer operand of a float operation becomes a float: rounded, and
    [OverflowError] when it is too large for one. *)
Definition py_float_of_int (n : Z) : result Q :=
  let x := binary64 (inject_Z n) in
  if overflows x then Raise OverflowError else Ok x.

(** [x * y] on floats: the rounded product, or an infinity ([None]). *)
Definition py_float_mul (x y : Q) : option Q :=
  let p := binary64 (x * y) in
  if overflows p then None else Some p.

(** [int(x)] on a float: [OverflowError] on an infinity. *)
Definition py_int_of_float (x : option Q) : result Z :=
  match x with
  | Some q => Ok (py_int q)
  | None => Raise OverflowError
  end.

(** [range(n)]. *)
Definition py_range (n : Z) : list Z := map Z.of_nat (seq 0 (Z.to_nat n)).

(** [l[start:]], with Python's reading of a negative [start] as an offset
    from the end. *)
Definition py_slice_from {A : Type} (start : Z) (l : list A) : list A :=
  if start <? 0
  then skipn (Z.to_nat (Z.of_nat (length l) + start)) l
  else skipn (Z.to_nat start) l.

(** A stable sort by an integer key: [list.sort(key=...)] and [sorted]. *)
Fixpoint insert_by {A : Type} (key : A -> Z) (x : A) (l : list A) : list A :=
  match l with
  | [] => [x]
  | y :: l' => if key x <=? key y then x :: y :: l' else y :: insert_by key x l'
  end.

Definition sort_by {A : Type} (key : A -> Z) (l : list A) : list A :=
  fold_right (insert_by key) [] l.

Definition sorted (l : list Z) : list Z := sort_by (fun x => x) l.

(** [np.mean] of a sequence of floats: NaN on the empty sequence (numpy
    warns and returns NaN, it does not raise). *)
Definition np_mean (l : list npfloat) : npfloat :=
  match l with
  | [] => NaN
  | _ => match fold_right fadd (Fin 0) l with
         | Fin s => Fin (s / inject_Z (Z.of_nat (length l)))
         | NaN => NaN
         end
  end.

(** ** numpy's generator and square root

    [np.random.seed], [np.random.rand], [np.random.choice(range(stop),
    size=size, replace=False)] and the square root inside [np.std] are not
    code of this repository: they are operations of the interface. *)

Class NumPy (rng : Type) : Type := {
  np_random_seed : Z -> rng -> result (unit * rng);
  np_random_rand : rng -> Q * rng;
  np_random_choice_range : Z -> Z -> rng -> result (list Z * rng);
  np_sqrt : Q -> Q
}.

(** The part of numpy's documented behaviour the proofs rely on: seeding
    replaces the generator's state whatever it was and accepts every seed
    below 2^32; sampling without replacement raises [ValueError] when asked
    for more elements than the population has and otherwise returns as many
    as asked; a square root is not negative. *)
Class NumPyContract (rng : Type) `{NumPy rng} : Prop := {
  seed_resets : forall s g1 g2, np_random_seed s g1 = np_random_seed s g2;
  seed_accepts : forall s g, 0 <= s < 2 ^ 32 ->
    exists g', np_random_seed s g = Ok (tt, g');
  choice_too_many : forall stop size g, Z.max stop 0 < size ->
    np_random_choice_range stop size g = Raise ValueError;
  choice_returns : forall stop size g, 0 <= size <= Z.max stop 0 ->
    exists l g', np_random_choice_range stop size g = Ok (l, g')
                 /\ length l = Z.to_nat size;
  sqrt_nonneg : forall q, (0 <= np_sqrt q)%Q
}.

(** [np.std]: the square root of the mean squared deviation from the mean. *)
Definition np_std {rng : Type} `{NumPy rng} (l : list npfloat) : npfloat :=
  match np_mean l with
  | NaN => NaN
  | Fin m =>
      match np_mean (map (fun x => fmul (fadd x (Fin (- m))) (fadd x (Fin (- m)))) l) with
      | Fin v => Fin (np_sqrt v)
      | NaN => NaN
      end
  end.

Section Monad.
Context {rng : Type}.

Definition M (A : Type) : Type := rng -> result (A * rng).

Definition ret {A : Type} (a : A) : M A := fun g => Ok (a, g).

Definition bind {A B : Type} (c : M A) (k : A -> M B) : M B :=
  fun g => match c g with
           | Ok (a, g') => k a g'
           | Raise e => Raise e
           end.

Definition lift {A : Type} (r : result A) : M A :=
  fun g => match r with
           | Ok a => Ok (a, g)
           | Raise e => Raise e
           end.

End Monad.
Arguments M rng A : clear implicits.

Declare Scope py_scope.
Delimit Scope py_scope with py.
Notation "x <- c ;; k" := (bind c (fun x => k))
  (at level 61, c at next level, right associativity) : py_scope.
Open Scope py_scope.

Section Loops.
Context {rng : Type}.

(** [for x in l: ... f(x) ...], collecting the results. *)
Fixpoint mapM {A B : Type} (f : A -> M rng B) (l : list A) : M rng (list B) :=
  match l with
  | [] => ret []
  | x :: l' => y <- f x ;; ys <- mapM f l' ;; ret (y :: ys)
  end.

(** [for _ in range(n): x = f(x)]. *)
Fixpoint iterM {A : Type} (n : nat) (f : A -> M rng A) (x : A) : M rng A :=
  match n with
  | O => ret x
  | S n' => y <- f x ;; iterM n' f y
  end.

End Loops.

(** [np.random.rand()]: it draws, and never raises. *)
Definition rand {rng : Type} `{NumPy rng} : M rng Q :=
  fun g => Ok (np_random_rand g).

(** ** agents.py *)

Module Car.

Record t : Type := mk {
  position : Z;
  velocity : Z;
  v_max : Z;
  acceleration : Z;
  brake_prob : Q;
  velocity_history : list Z;
  position_history : list Z
}.

Definition set_velocity (self : t) (v : Z) : t :=
  mk (position self) v (v_max self) (acceleration self) (brake_prob self)
     (velocity_history self) (position_history self).

Definition set_position (self : t) (p : Z) : t :=
  mk p (velocity self) (v_max self) (acceleration self) (brake_prob self)
     (velocity_history self) (position_history self).

Definition record_state (self : t) : t :=
  mk (position self) (velocity self) (v_max self) (acceleration self)
     (brake_prob self)
     (velocity_history self ++ [velocity self])
     (position_history self ++ [position self]).

(** [Car.__init__]. *)
Definition init (position v_max acceleration : Z) (brake_prob : Q) : t :=
  mk position 0 v_max acceleration brake_prob [] [].

(** [Car.update]. *)
Definition update {rng : Type} `{NumPy rng}
    (self : t) (distance_to_next road_length : Z) : M rng t :=
  (* Step 1: accelerate *)
  let self := set_velocity self
                (Z.min (velocity self + acceleration self) (v_max self)) in
  (* Step 2: collision avoidance *)
  let safe_distance := velocity self in
  let self := if distance_to_next <=? safe_distance
              then set_velocity self (Z.max (distance_to_next - 1) 0)
              else self in
  (* Step 3: random braking *)
  u <- rand ;;
  let self := if Qlt_bool u (brake_prob self)
              then set_velocity self (Z.max (velocity self - 1) 0)
              else self in
  (* Step 4: move *)
  p <- lift (py_mod (position self + velocity self) road_length) ;;
  let self := set_position self p in
  (* record state *)
  ret (record_state self).

End Car.

(** ** environment.py *)

Module Road.

(** The three attributes [introduce_accident] creates; a road that never
    had an accident has none of them ([hasattr] is false). *)
Record accident : Type := mk_accident {
  accident_location : Z;
  accident_duration : Z;
  accident_timer : Z
}.

Record t : Type := mk {
  length : Z;
  n_cars : Z;
  time : Z;
  cars : list Car.t;
  avg_velocity_history : list npfloat;
  density_history : list npfloat;
  flow_history : list npfloat;
  incident : option accident
}.

Definition set_cars (self : t) (cs : list Car.t) : t :=
  mk (length self) (n_cars self) (time self) cs (avg_velocity_history self)
     (density_history self) (flow_history self) (incident self).

Definition set_time (self : t) (n : Z) : t :=
  mk (length self) (n_cars self) n (cars self) (avg_velocity_history self)
     (density_history self) (flow_history self) (incident self).

Definition set_incident (self : t) (a : option accident) : t :=
  mk (length self) (n_cars self) (time self) (cars self)
     (avg_velocity_history self) (density_history self) (flow_history self) a.

(** [Road.introduce_accident]. *)
Definition introduce_accident (self : t) (location duration : Z) : t :=
  set_incident self (Some (mk_accident location duration 0)).

(** The body of the loop of [_apply_accident_effects]. *)
Definition stop_if_near (road_length location : Z) (car : Car.t) : Car.t :=
  let distance_to_accident := Z.abs (Car.position car - location) in
  let distance_to_accident :=
    Z.min distance_to_accident (road_length - distance_to_accident) in
  if distance_to_accident <? 20 then Car.set_velocity car 0 else car.

(** [Road._apply_accident_effects]. *)
Definition _apply_accident_effects (self : t) : t :=
  match incident self with
  | None => self
  | Some a =>
      if accident_timer a <? accident_duration a
      then
        let self :=
          set_cars self
            (map (stop_if_near (length self) (accident_location a)) (cars self)) in
        set_incident self
          (Some (mk_accident (accident_location a) (accident_duration a)
                             (accident_timer a + 1)))
      else self
  end.

Section Step.
Context {rng : Type} `{NumPy rng}.

(** [Road.__init__]. *)
Definition init (length n_cars v_max : Z) (brake_prob : Q) : M rng t :=
  sample <- np_random_choice_range length n_cars ;;
  let positions := sorted sample in
  ret (mk length n_cars 0
          (map (fun pos => Car.init pos v_max 1 brake_prob) positions)
          [] [] [] None).

(** [Road._record_metrics]. *)
Definition _record_metrics (self : t) : M rng t :=
  let velocities := map Car.velocity (cars self) in
  let avg_v := np_mean (map float_of_int velocities) in
  density <- lift (py_truediv (n_cars self) (length self)) ;;
  let flow := fmul density avg_v in
  ret (mk (length self) (n_cars self) (time self) (cars self)
          (avg_velocity_history self ++ [avg_v])
          (density_history self ++ [density])
          (flow_history self ++ [flow])
          (incident self)).

(** The first loop of [step]: the distance of every car to the next. *)
Definition distances (self : t) : M rng (list Z) :=
  let n := List.length (cars self) in
  let pos := fun i => nth i (map Car.position (cars self)) 0 in
  mapM (fun i =>
          let next_idx := ((i + 1) mod n)%nat in
          lift (py_mod (pos next_idx - pos i) (length self)))
       (seq 0 n).

(** [Road.step]. *)
Definition step (self : t) : M rng t :=
  let self := _apply_accident_effects self in
  let self := set_cars self (sort_by Car.position (cars self)) in
  ds <- distances self ;;
  cs <- mapM (fun cd => Car.update (fst cd) (snd cd) (length self))
             (combine (cars self) ds) ;;
  let self := set_cars self cs in
  let self := set_time self (time self + 1) in
  _record_metrics self.

End Step.

End Road.

(** ** simulation.py *)

Module Simulation.

(** One value of the dictionary [experiment_density_scan] returns. *)
Record aggregate : Type := mk_aggregate {
  avg_velocity : npfloat;
  std_velocity : npfloat;
  avg_flow : npfloat;
  std_flow : npfloat
}.

(** A Python dictionary with float keys, in insertion order. *)
Definition dict : Type := list (Q * aggregate).

(** [d[k] = v]: the value of an equal key is replaced where it stands. *)
Fixpoint dict_set (d : dict) (k : Q) (v : aggregate) : dict :=
  match d with
  | [] => [(k, v)]
  | (k', v') :: d' =>
      if Qeq_bool k' k then (k', v) :: d' else (k', v') :: dict_set d' k v
  end.

(** [d[k]], when the key is present. *)
Fixpoint dict_get (d : dict) (k : Q) : option aggregate :=
  match d with
  | [] => None
  | (k', v') :: d' => if Qeq_bool k' k then Some v' else dict_get d' k
  end.

(** [int(density * road_length)] on a float and an integer: the integer
    becomes a float, the product is rounded, and [int] truncates it. *)
Definition int_of_product (density : Q) (road_length : Z) : result Z :=
  match py_float_of_int road_length with
  | Ok l => py_int_of_float (py_float_mul density l)
  | Raise e => Raise e
  end.

Section Drivers.
Context {rng : Type} `{NumPy rng}.

(** [run_simulation]; [seed] is [None] when the caller gives none. *)
Definition run_simulation (n_steps road_length n_cars v_max : Z)
    (brake_prob : Q) (seed : option Z) : M rng Road.t :=
  _ <- match seed with
       | Some s => np_random_seed s
       | None => ret tt
       end ;;
  road <- Road.init road_length n_cars v_max brake_prob ;;
  iterM (Z.to_nat n_steps) Road.step road.

(** The body of the inner loop of [experiment_density_scan]: one replicate,
    with [run_simulation]'s defaults [v_max=5] and [brake_prob=0.3]. *)
Definition replicate (n_steps road_length n_cars burn_in run : Z)
    : M rng (npfloat * npfloat) :=
  road <- run_simulation n_steps road_length n_cars 5 (3 # 10) (Some run) ;;
  let steady_state_velocities :=
    py_slice_from burn_in (Road.avg_velocity_history road) in
  let steady_state_flows := py_slice_from burn_in (Road.flow_history road) in
  ret (np_mean steady_state_velocities, np_mean steady_state_flows).

(** The outer loop of [experiment_density_scan], from the dictionary built
    so far; [densities] are floats. *)
Fixpoint scan_loop (densities : list Q) (n_steps road_length n_runs burn_in : Z)
    (results : dict) : M rng dict :=
  match densities with
  | [] => ret results
  | density :: rest =>
      n_cars <- lift (int_of_product density road_length) ;;
      samples <- mapM (replicate n_steps road_length n_cars burn_in)
                      (py_range n_runs) ;;
      let avg_velocities := map fst samples in
      let avg_flows := map snd samples in
      scan_loop rest n_steps road_length n_runs burn_in
        (dict_set results density
           (mk_aggregate (np_mean avg_velocities) (np_std avg_velocities)
                         (np_mean avg_flows) (np_std avg_flows)))
  end.

(** [experiment_density_scan].  The densities are given as the numbers the
    caller writes; the floats the function receives are their binary64
    values (a number that is a float already is its own). *)
Definition experiment_density_scan (densities : list Q)
    (n_steps road_length n_runs burn_in : Z) : M rng dict :=
  scan_loop (map binary64 densities) n_steps road_length n_runs burn_in [].

End Drivers.

End Simulation.

(** ** A small generator to run the model on concrete inputs

    A linear congruential generator stands in for numpy's Mersenne twister,
    and an integer square root for the floating-point one. *)

Module Toy.

Definition modulus : Z := 2 ^ 32.

Definition next (g : Z) : Z := (1664525 * g + 1013904223) mod modulus.

Definition toy_seed (s : Z) (g : Z) : result (unit * Z) :=
  if (0 <=? s) && (s <? 2 ^ 32) then Ok (tt, s) else Raise ValueError.

Definition toy_rand (g : Z) : Q * Z :=
  (Qmake (next g) (Z.to_pos modulus), next g).

Definition toy_choice (stop size : Z) (g : Z) : result (list Z * Z) :=
  if size <? 0 then Raise ValueError
  else if Z.max stop 0 <? size then Raise ValueError
  else Ok (map (fun i => (next g + i) mod stop) (py_range size), next g).

Definition toy_sqrt (q : Q) : Q :=
  Qmake (Z.sqrt (Qnum q * Zpos (Qden q) * 2 ^ 40)) (Qden q * 2 ^ 20).

#[global] Instance toy_numpy : NumPy Z := {
  np_random_seed := toy_seed;
  np_random_rand := toy_rand;
  np_random_choice_range := toy_choice;
  np_sqrt := toy_sqrt
}.

End Toy.

(** * Properties *)

(** ** The specification's words, as definitions

    The phases of the vehicle update as the specification lists them, to be
    compared with [Car.update]. *)

Definition phase_accelerate (c : Car.t) : Z :=
  Z.min (Car.velocity c + Car.acceleration c) (Car.v_max c).

Definition phase_avoid (gap v : Z) : Z :=
  if gap <=? v then Z.max (gap - 1) 0 else v.

Definition phase_brake (u p : Q) (v : Z) : Z :=
  if Qlt_bool u p then Z.max (v - 1) 0 else v.

Definition update_spec (c : Car.t) (gap road_length : Z) (u : Q) : Car.t :=
  let v := phase_brake u (Car.brake_prob c)
             (phase_avoid gap (phase_accelerate c)) in
  let p := (Car.position c + v) mod road_length in
  Car.mk p v (Car.v_max c) (Car.acceleration c) (Car.brake_prob c)
         (Car.velocity_history c ++ [v]) (Car.position_history c ++ [p]).

(** The bounds the data model puts on a vehicle of a road of length [L]. *)
Definition car_ok (L : Z) (c : Car.t) : Prop :=
  0 <= Car.velocity c <= Car.v_max c /\
  0 <= Car.position c < L /\
  0 <= Car.acceleration c.

(** The shortest circular distance of a car to a cell. *)
Definition circular_distance (L loc : Z) (c : Car.t) : Z :=
  Z.min (Z.abs (Car.position c - loc)) (L - Z.abs (Car.position c - loc)).

(** [Road.step] after its first statement, the incident override. *)
Definition step_after_override {rng : Type} `{NumPy rng} (self : Road.t)
    : M rng Road.t :=
  let self := Road.set_cars self (sort_by Car.position (Road.cars self)) in
  ds <- Road.distances self ;;
  cs <- mapM (fun cd => Car.update (fst cd) (snd cd) (Road.length self))
             (combine (Road.cars self) ds) ;;
  let self := Road.set_cars self cs in
  let self := Road.set_time self (Road.time self + 1) in
  Road._record_metrics self.

(** The gaps around the ring, by recursion on the list of positions:
    every position to the next, the last one to [first]. *)
Fixpoint ring_gaps (L first : Z) (ps : list Z) : list Z :=
  match ps with
  | [] => []
  | p :: rest =>
      match rest with
      | [] => [(first - p) mod L]
      | q :: _ => (q - p) mod L :: ring_gaps L first rest
      end
  end.

(** ** Sorting *)

Section Sorting.
Context {A : Type} (key : A -> Z).

Definition key_le (a b : A) : Prop := key a <= key b.

Lemma insert_by_perm (x : A) (l : list A) :
  Permutation (x :: l) (insert_by key x l).
Proof.
  induction l as [|y l IH]; simpl.
  - reflexivity.
  - destruct (key x <=? key y).
    + reflexivity.
    + rewrite perm_swap. now apply perm_skip.
Qed.

Lemma sort_by_perm (l : list A) : Permutation l (sort_by key l).
Proof.
  induction l as [|x l IH]; simpl.
  - constructor.
  - etransitivity; [apply perm_skip, IH | apply insert_by_perm].
Qed.

Lemma insert_by_hdrel (a x : A) (l : list A) :
  key_le a x -> HdRel key_le a l -> HdRel key_le a (insert_by key x l).
Proof.
  intros Hax Hal. destruct l as [|y l]; simpl.
  - now constructor.
  - destruct (key x <=? key y); constructor; auto.
    now inversion Hal.
Qed.

Lemma insert_by_sorted (x : A) (l : list A) :
  Sorted key_le l -> Sorted key_le (insert_by key x l).
Proof.
  induction l as [|y l IH]; simpl; intros Hs.
  - repeat constructor.
  - destruct (key x <=? key y) eqn:E.
    + constructor; [assumption|]. constructor. unfold key_le. lia.
    + inversion Hs; subst. constructor; [now apply IH|].
      apply insert_by_hdrel; [unfold key_le; lia | assumption].
Qed.

Lemma sort_by_sorted (l : list A) : Sorted key_le (sort_by key l).
Proof.
  induction l as [|x l IH]; simpl.
  - constructor.
  - now apply insert_by_sorted.
Qed.

Lemma sort_by_length (l : list A) : length (sort_by key l) = length l.
Proof. symmetry. apply Permutation_length, sort_by_perm. Qed.

End Sorting.

(** ** Running computations *)

Section Running.
Context {rng : Type} `{NumPy rng}.

Lemma mapM_pure {A B : Type} (f : A -> M rng B) (h : A -> B) (l : list A) :
  (forall x g, In x l -> f x g = Ok (h x, g)) ->
  forall g, mapM f l g = Ok (map h l, g).
Proof.
  induction l as [|x l IH]; intros Hf g; simpl.
  - reflexivity.
  - unfold bind. rewrite Hf by now left.
    rewrite IH by (intros; apply Hf; now right). reflexivity.
Qed.

Lemma py_mod_nonzero (a b : Z) : b <> 0 -> py_mod a b = Ok (a mod b).
Proof. intros Hb. unfold py_mod. destruct (Z.eqb_spec b 0); congruence. Qed.

Lemma py_truediv_nonzero (a b : Z) :
  b <> 0 -> py_truediv a b = Ok (Fin (inject_Z a / inject_Z b)).
Proof. intros Hb. unfold py_truediv. destruct (Z.eqb_spec b 0); congruence. Qed.

(** [Car.update] computes the phases of the specification. *)
Lemma update_run (c : Car.t) (d L : Z) (g : rng) :
  L <> 0 ->
  Car.update c d L g
  = Ok (update_spec c d L (fst (np_random_rand g)), snd (np_random_rand g)).
Proof.
  intros HL. unfold Car.update, bind, rand, lift.
  destruct (np_random_rand g) as [u g1]; simpl.
  unfold update_spec, phase_brake, phase_avoid, phase_accelerate.
  destruct (d <=? _); simpl;
    destruct (Qlt_bool u (Car.brake_prob c)); simpl;
    rewrite py_mod_nonzero by assumption; reflexivity.
Qed.

(** The second loop of [Road.step], as a function of the generator. *)
Fixpoint update_all_spec (cds : list (Car.t * Z)) (L : Z) (g : rng)
    : list Car.t * rng :=
  match cds with
  | [] => ([], g)
  | (c, d) :: rest =>
      let r := update_all_spec rest L (snd (np_random_rand g)) in
      (update_spec c d L (fst (np_random_rand g)) :: fst r, snd r)
  end.

Lemma update_all_run (cds : list (Car.t * Z)) (L : Z) (g : rng) :
  L <> 0 ->
  mapM (fun cd => Car.update (fst cd) (snd cd) L) cds g
  = Ok (update_all_spec cds L g).
Proof.
  intros HL. revert g. induction cds as [|[c d] cds IH]; intros g; simpl.
  - reflexivity.
  - unfold bind. rewrite update_run by assumption. rewrite IH.
    destruct (update_all_spec cds L _); reflexivity.
Qed.

Lemma update_all_spec_Forall2 (cds : list (Car.t * Z)) (L : Z) (g : rng) :
  Forall2 (fun cd c' => exists u, c' = update_spec (fst cd) (snd cd) L u)
          cds (fst (update_all_spec cds L g)).
Proof.
  revert g. induction cds as [|[c d] cds IH]; intros g; simpl.
  - constructor.
  - constructor; [eexists; reflexivity | apply IH].
Qed.

Definition gaps_by_index (L : Z) (ps : list Z) : list Z :=
  map (fun i => (nth ((i + 1) mod length ps)%nat ps 0 - nth i ps 0) mod L)
      (seq 0 (length ps)).

Lemma distances_run (self : Road.t) (g : rng) :
  Road.length self <> 0 ->
  Road.distances self g
  = Ok (gaps_by_index (Road.length self) (map Car.position (Road.cars self)), g).
Proof.
  intros HL. unfold Road.distances, gaps_by_index.
  rewrite length_map.
  apply mapM_pure. intros i g0 _. unfold lift.
  now rewrite py_mod_nonzero.
Qed.

Lemma record_metrics_run (self : Road.t) (g : rng) :
  Road.length self <> 0 ->
  Road._record_metrics self g
  = Ok (Road.mk (Road.length self) (Road.n_cars self) (Road.time self)
          (Road.cars self)
          (Road.avg_velocity_history self
             ++ [np_mean (map float_of_int (map Car.velocity (Road.cars self)))])
          (Road.density_history self
             ++ [Fin (inject_Z (Road.n_cars self) / inject_Z (Road.length self))])
          (Road.flow_history self
             ++ [fmul (Fin (inject_Z (Road.n_cars self) / inject_Z (Road.length self)))
                      (np_mean (map float_of_int (map Car.velocity (Road.cars self))))])
          (Road.incident self), g).
Proof.
  intros HL. unfold Road._record_metrics, bind, lift.
  now rewrite py_truediv_nonzero.
Qed.

Lemma step_is_override_then_rest (self : Road.t) :
  Road.step self = step_after_override (Road._apply_accident_effects self).
Proof. reflexivity. Qed.

Lemma override_length (self : Road.t) :
  Road.length (Road._apply_accident_effects self) = Road.length self.
Proof.
  unfold Road._apply_accident_effects.
  destruct (Road.incident self) as [a|]; [|reflexivity].
  destruct (_ <? _); reflexivity.
Qed.

(** One tick, in closed form. *)
Definition step_spec (self : Road.t) (g : rng) : Road.t * rng :=
  let r1 := Road._apply_accident_effects self in
  let s := sort_by Car.position (Road.cars r1) in
  let gaps := gaps_by_index (Road.length self) (map Car.position s) in
  let upd := update_all_spec (combine s gaps) (Road.length self) g in
  let avg := np_mean (map float_of_int (map Car.velocity (fst upd))) in
  let density := Fin (inject_Z (Road.n_cars r1) / inject_Z (Road.length self)) in
  (Road.mk (Road.length self) (Road.n_cars r1) (Road.time r1 + 1) (fst upd)
     (Road.avg_velocity_history r1 ++ [avg])
     (Road.density_history r1 ++ [density])
     (Road.flow_history r1 ++ [fmul density avg])
     (Road.incident r1), snd upd).

Lemma step_run (self : Road.t) (g : rng) :
  Road.length self <> 0 -> Road.step self g = Ok (step_spec self g).
Proof.
  intros HL. rewrite step_is_override_then_rest.
  unfold step_after_override, step_spec, bind.
  pose proof (override_length self) as E.
  set (r1 := Road._apply_accident_effects self) in *.
  rewrite distances_run by (simpl; congruence).
  simpl Road.cars. simpl Road.length. rewrite E.
  rewrite update_all_run by assumption.
  destruct (update_all_spec _ _ _) as [cs g1] eqn:Eu.
  rewrite record_metrics_run by (simpl; congruence).
  simpl. rewrite E. reflexivity.
Qed.

End Running.

(** ** The vehicle update *)

Lemma Qlt_bool_iff (x y : Q) : Qlt_bool x y = true <-> (x < y)%Q.
Proof.
  unfold Qlt_bool. rewrite negb_true_iff.
  split; intros Hxy.
  - apply Qnot_le_lt. intros Hle. apply Qle_bool_iff in Hle. congruence.
  - destruct (Qle_bool y x) eqn:E; [|reflexivity].
    apply Qle_bool_iff in E. exfalso. exact (Qlt_not_le _ _ Hxy E).
Qed.

Lemma phase_avoid_spec (gap v : Z) :
  (gap <= v -> phase_avoid gap v = Z.max (gap - 1) 0) /\
  (v < gap -> phase_avoid gap v = v).
Proof.
  unfold phase_avoid. destruct (Z.leb_spec gap v); split; intros; lia || reflexivity.
Qed.

Lemma phase_brake_spec (u p : Q) (v : Z) :
  ((u < p)%Q -> phase_brake u p v = Z.max (v - 1) 0) /\
  (~ (u < p)%Q -> phase_brake u p v = v).
Proof.
  unfold phase_brake. destruct (Qlt_bool u p) eqn:E; split; intros Hup; try reflexivity.
  - apply Qlt_bool_iff in E. contradiction.
  - apply Qlt_bool_iff in Hup. congruence.
Qed.

Section VehicleUpdate.
Context {rng : Type} `{NumPy rng}.

(** C1. One call of the vehicle update with a gap [d] on a road of positive
    length [L] draws once from the generator and returns the vehicle whose
    velocity went through acceleration ([v1]), collision avoidance ([v2])
    and stochastic braking ([v3]) in this order, whose position moved by
    the resulting velocity modulo [L], and whose two histories grew by the
    resulting velocity and position; the other attributes are unchanged. *)
Theorem C1_update_phases (self : Car.t) (d L : Z) (g : rng) :
  0 <= d -> 0 < L ->
  exists v1 v2 v3 p : Z,
    v1 = Z.min (Car.velocity self + Car.acceleration self) (Car.v_max self) /\
    (d <= v1 -> v2 = Z.max (d - 1) 0) /\
    (v1 < d -> v2 = v1) /\
    ((fst (np_random_rand g) < Car.brake_prob self)%Q -> v3 = Z.max (v2 - 1) 0) /\
    (~ (fst (np_random_rand g) < Car.brake_prob self)%Q -> v3 = v2) /\
    p = (Car.position self + v3) mod L /\
    Car.update self d L g
    = Ok (Car.mk p v3 (Car.v_max self) (Car.acceleration self)
                 (Car.brake_prob self)
                 (Car.velocity_history self ++ [v3])
                 (Car.position_history self ++ [p]),
          snd (np_random_rand g)).
Proof.
  intros _ HL.
  exists (phase_accelerate self),
         (phase_avoid d (phase_accelerate self)),
         (phase_brake (fst (np_random_rand g)) (Car.brake_prob self)
                      (phase_avoid d (phase_accelerate self))),
         (Car.position (update_spec self d L (fst (np_random_rand g)))).
  repeat split.
  - apply phase_avoid_spec.
  - apply phase_avoid_spec.
  - apply phase_brake_spec.
  - apply phase_brake_spec.
  - rewrite update_run by lia. reflexivity.
Qed.

Lemma update_spec_bounds (c : Car.t) (d L : Z) (u : Q) :
  car_ok L c -> car_ok L (update_spec c d L u).
Proof.
  intros (Hv & Hp & Ha). unfold car_ok, update_spec; simpl.
  assert (0 <= phase_accelerate c <= Car.v_max c) as H1
    by (unfold phase_accelerate; lia).
  assert (0 <= phase_avoid d (phase_accelerate c) <= Car.v_max c) as H2
    by (unfold phase_avoid; destruct (Z.leb_spec d (phase_accelerate c)); lia).
  repeat split; try lia.
  - unfold phase_brake. destruct (Qlt_bool _ _); lia.
  - unfold phase_brake. destruct (Qlt_bool _ _); lia.
  - apply Z.mod_pos_bound; lia.
  - apply Z.mod_pos_bound; lia.
Qed.

Lemma stop_if_near_bounds (L loc : Z) (c : Car.t) :
  car_ok L c -> car_ok L (Road.stop_if_near L loc c).
Proof.
  intros (Hv & Hp & Ha). unfold Road.stop_if_near.
  destruct (_ <? 20); unfold car_ok; simpl; lia.
Qed.

Lemma override_bounds (r : Road.t) :
  Forall (car_ok (Road.length r)) (Road.cars r) ->
  Forall (car_ok (Road.length r)) (Road.cars (Road._apply_accident_effects r)).
Proof.
  intros Hall. unfold Road._apply_accident_effects.
  destruct (Road.incident r) as [a|]; [|assumption].
  destruct (_ <? _); [|assumption]. simpl.
  apply Forall_map. eapply Forall_impl; [|exact Hall].
  intros c. apply stop_if_near_bounds.
Qed.

(** C3. A vehicle within the bounds of the data model (velocity between 0
    and [v_max], position a cell of the road, acceleration not negative)
    is within them again after an update with any gap and any draw, after
    being stopped by an incident, and so is every vehicle of a road after
    the incident override of a tick. *)
Theorem C3_bounds_preserved (self : Car.t) (d L : Z) (g : rng) :
  0 <= Car.velocity self <= Car.v_max self ->
  0 <= Car.position self < L ->
  0 <= Car.acceleration self ->
  0 <= d ->
  (exists self' g',
      Car.update self d L g = Ok (self', g') /\
      0 <= Car.velocity self' <= Car.v_max self' /\
      0 <= Car.position self' < L /\
      Car.v_max self' = Car.v_max self /\
      Car.acceleration self' = Car.acceleration self) /\
  (0 <= Car.velocity (Car.set_velocity self 0) <= Car.v_max (Car.set_velocity self 0)
   /\ 0 <= Car.position (Car.set_velocity self 0) < L) /\
  (forall loc,
      0 <= Car.velocity (Road.stop_if_near L loc self)
        <= Car.v_max (Road.stop_if_near L loc self)
      /\ 0 <= Car.position (Road.stop_if_near L loc self) < L) /\
  (forall r : Road.t,
      Road.length r = L ->
      Forall (car_ok L) (Road.cars r) ->
      Forall (car_ok L) (Road.cars (Road._apply_accident_effects r))).
Proof.
  intros Hv Hp Ha _.
  assert (car_ok L self) as Hok by (unfold car_ok; auto).
  split; [|split; [|split]].
  - exists (update_spec self d L (fst (np_random_rand g))), (snd (np_random_rand g)).
    pose proof (update_spec_bounds self d L (fst (np_random_rand g)) Hok)
      as (Hv' & Hp' & _).
    rewrite update_run by lia. auto.
  - simpl. lia.
  - intros loc. pose proof (stop_if_near_bounds L loc self Hok) as (Hv' & Hp' & _).
    auto.
  - intros r <- Hall. now apply override_bounds.
Qed.

End VehicleUpdate.

(** C1 at a concrete vehicle: gap 2, road of 10 cells. *)
Lemma C1_update_phases_witness :
  exists v1 v2 v3 p : Z,
    v1 = 3 /\ (2 <= v1 -> v2 = 1) /\ (v1 < 2 -> v2 = v1) /\
    ((fst (Toy.toy_rand 7) < 3 # 10)%Q -> v3 = Z.max (v2 - 1) 0) /\
    (~ (fst (Toy.toy_rand 7) < 3 # 10)%Q -> v3 = v2) /\
    p = (8 + v3) mod 10 /\
    Car.update (Car.mk 8 2 5 1 (3 # 10) [2] [8]) 2 10 7
    = Ok (Car.mk p v3 5 1 (3 # 10) [2; v3] [8; p], snd (Toy.toy_rand 7)).
Proof.
  exact (C1_update_phases (Car.mk 8 2 5 1 (3 # 10) [2] [8]) 2 10 7
           ltac:(lia) ltac:(lia)).
Defined.

(** C3 at a concrete vehicle. *)
Lemma C3_bounds_preserved_witness :
  exists self' g',
    Car.update (Car.mk 8 2 5 1 (3 # 10) [2] [8]) 2 10 7 = Ok (self', g') /\
    0 <= Car.velocity self' <= Car.v_max self' /\
    0 <= Car.position self' < 10 /\
    Car.v_max self' = 5 /\ Car.acceleration self' = 1.
Proof.
  exact (proj1 (C3_bounds_preserved (Car.mk 8 2 5 1 (3 # 10) [2] [8]) 2 10 7
                  ltac:(simpl; lia) ltac:(simpl; lia) ltac:(simpl; lia)
                  ltac:(lia))).
Defined.

(** ** One tick of the road *)

Lemma override_frame (r : Road.t) :
  Road.length (Road._apply_accident_effects r) = Road.length r /\
  Road.n_cars (Road._apply_accident_effects r) = Road.n_cars r /\
  Road.time (Road._apply_accident_effects r) = Road.time r /\
  Road.avg_velocity_history (Road._apply_accident_effects r)
    = Road.avg_velocity_history r /\
  Road.density_history (Road._apply_accident_effects r) = Road.density_history r /\
  Road.flow_history (Road._apply_accident_effects r) = Road.flow_history r /\
  map Car.position (Road.cars (Road._apply_accident_effects r))
    = map Car.position (Road.cars r).
Proof.
  unfold Road._apply_accident_effects.
  destruct (Road.incident r) as [a|]; [|repeat split].
  destruct (_ <? _); [|repeat split]. simpl. repeat split.
  rewrite map_map. apply map_ext. intros c. unfold Road.stop_if_near.
  now destruct (_ <? 20).
Qed.

Lemma gaps_by_index_length (L : Z) (ps : list Z) :
  length (gaps_by_index L ps) = length ps.
Proof. unfold gaps_by_index. now rewrite length_map, length_seq. Qed.

Lemma gaps_by_index_nth (L : Z) (ps : list Z) (i : nat) :
  (i < length ps)%nat ->
  nth i (gaps_by_index L ps) 0
  = (nth ((i + 1) mod length ps)%nat ps 0 - nth i ps 0) mod L.
Proof.
  intros Hi. unfold gaps_by_index.
  set (f := fun j : nat => _).
  rewrite (nth_indep _ 0 (f O)) by now rewrite length_map, length_seq.
  rewrite map_nth. rewrite seq_nth by assumption. reflexivity.
Qed.

Section Tick.
Context {rng : Type} `{NumPy rng}.

(** C2. One call of [step] on a road of positive length, after the
    incident override [r1] of the tick: the cars are sorted by ascending
    position ([s]); the gap of every cyclic index is the difference of the
    sorted pre-step positions modulo the length; every car is updated with
    that gap, in order; time grows by one; and each system history grows by
    one value: the mean of the new velocities, [n_cars / length], and their
    product. *)
Theorem C2_step_schedule (self : Road.t) (g : rng) :
  0 < Road.length self ->
  let L := Road.length self in
  let r1 := Road._apply_accident_effects self in
  let s := sort_by Car.position (Road.cars r1) in
  let pos := fun i => nth i (map Car.position s) 0 in
  Permutation (Road.cars r1) s /\
  Sorted (key_le Car.position) s /\
  exists (gaps : list Z) (cs : list Car.t) (g' : rng),
    length gaps = length s /\
    (forall i, (i < length s)%nat ->
       nth i gaps 0 = (pos ((i + 1) mod length s)%nat - pos i) mod L) /\
    mapM (fun cd => Car.update (fst cd) (snd cd) L) (combine s gaps) g
      = Ok (cs, g') /\
    let avg := np_mean (map float_of_int (map Car.velocity cs)) in
    let density := Fin (inject_Z (Road.n_cars self) / inject_Z L) in
    Road.step self g
    = Ok (Road.mk L (Road.n_cars self) (Road.time self + 1) cs
            (Road.avg_velocity_history self ++ [avg])
            (Road.density_history self ++ [density])
            (Road.flow_history self ++ [fmul density avg])
            (Road.incident r1), g').
Proof.
  intros HL L r1 s pos.
  split; [apply sort_by_perm|]. split; [apply sort_by_sorted|].
  exists (gaps_by_index L (map Car.position s)),
         (fst (update_all_spec (combine s (gaps_by_index L (map Car.position s))) L g)),
         (snd (update_all_spec (combine s (gaps_by_index L (map Car.position s))) L g)).
  split; [now rewrite gaps_by_index_length, length_map|].
  split.
  { intros i Hi. unfold pos. rewrite gaps_by_index_nth by now rewrite length_map.
    now rewrite length_map. }
  split.
  { rewrite update_all_run by (unfold L; lia). now destruct (update_all_spec _ _ _). }
  intros avg density. rewrite step_run by lia. unfold step_spec.
  destruct (override_frame self) as (_ & En & Et & Ea & Ed & Ef & _).
  subst avg density s r1 L. cbv zeta. rewrite En, Et, Ea, Ed, Ef. reflexivity.
Qed.

End Tick.

(** C2 on a road of ten cells with three cars, out of order. *)
Lemma C2_step_schedule_witness :
  exists cs g',
    Road.step (Road.mk 10 3 0 [Car.init 7 5 1 (3 # 10); Car.init 2 5 1 (3 # 10);
                              Car.init 4 5 1 (3 # 10)] [] [] [] None) 7
    = Ok (Road.mk 10 3 1 cs
            [np_mean (map float_of_int (map Car.velocity cs))]
            [Fin (inject_Z 3 / inject_Z 10)]
            [fmul (Fin (inject_Z 3 / inject_Z 10))
                  (np_mean (map float_of_int (map Car.velocity cs)))]
            None, g').
Proof.
  destruct (C2_step_schedule
              (Road.mk 10 3 0 [Car.init 7 5 1 (3 # 10); Car.init 2 5 1 (3 # 10);
                               Car.init 4 5 1 (3 # 10)] [] [] [] None) 7
              ltac:(simpl; lia))
    as (_ & _ & gaps & cs & g' & _ & _ & _ & Hstep).
  exists cs, g'. exact Hstep.
Defined.

(** ** Runs of several ticks *)

Section Runs.
Context {rng : Type} `{NumPy rng}.

(** [k] ticks, in closed form. *)
Fixpoint run_spec (k : nat) (r : Road.t) (g : rng) : Road.t * rng :=
  match k with
  | O => (r, g)
  | S k' => run_spec k' (fst (step_spec r g)) (snd (step_spec r g))
  end.

Lemma step_spec_length (r : Road.t) (g : rng) :
  Road.length (fst (step_spec r g)) = Road.length r.
Proof. reflexivity. Qed.

Lemma step_spec_incident (r : Road.t) (g : rng) :
  Road.incident (fst (step_spec r g))
  = Road.incident (Road._apply_accident_effects r).
Proof. reflexivity. Qed.

Lemma run_spec_length (k : nat) (r : Road.t) (g : rng) :
  Road.length (fst (run_spec k r g)) = Road.length r.
Proof.
  revert r g. induction k as [|k IH]; intros r g; simpl; [reflexivity|].
  now rewrite IH.
Qed.

Lemma iter_step_run (k : nat) (r : Road.t) (g : rng) :
  Road.length r <> 0 -> iterM k Road.step r g = Ok (run_spec k r g).
Proof.
  revert r g. induction k as [|k IH]; intros r g HL; cbn [iterM run_spec].
  - reflexivity.
  - unfold bind. rewrite step_run by assumption.
    pose proof (step_spec_length r g) as E.
    destruct (step_spec r g) as [r' g']. cbn [fst snd] in *.
    apply IH. congruence.
Qed.

Lemma run_spec_incident (k : nat) (r : Road.t) (g : rng) (loc dur t : Z) :
  Road.incident r = Some (Road.mk_accident loc dur t) ->
  0 <= t <= dur ->
  Road.incident (fst (run_spec k r g))
  = Some (Road.mk_accident loc dur (Z.min (t + Z.of_nat k) dur)).
Proof.
  revert r g t. induction k as [|k IH]; intros r g t Hi Ht.
  - simpl. rewrite Hi. do 2 f_equal. lia.
  - cbn [run_spec].
    destruct (Z.ltb_spec t dur) as [Hlt|Hge].
    + rewrite (IH _ _ (t + 1)).
      * do 2 f_equal. lia.
      * rewrite step_spec_incident. unfold Road._apply_accident_effects.
        rewrite Hi. simpl. destruct (Z.ltb_spec t dur); [reflexivity | lia].
      * lia.
    + rewrite (IH _ _ t).
      * do 2 f_equal. lia.
      * rewrite step_spec_incident. unfold Road._apply_accident_effects.
        rewrite Hi. simpl. destruct (Z.ltb_spec t dur); [lia | assumption].
      * lia.
Qed.

Lemma stop_if_near_spec (L loc : Z) (c : Car.t) :
  (circular_distance L loc c < 20 -> Road.stop_if_near L loc c = Car.set_velocity c 0)
  /\ (20 <= circular_distance L loc c -> Road.stop_if_near L loc c = c).
Proof.
  unfold Road.stop_if_near, circular_distance.
  destruct (Z.ltb_spec (Z.min (Z.abs (Car.position c - loc))
                              (L - Z.abs (Car.position c - loc))) 20);
    split; intros; lia || reflexivity.
Qed.

(** C4. [introduce_accident] stores the location and the duration with a
    timer at 0, whatever incident the road had, and touches nothing else.
    After [k] further ticks the timer is [min k duration].  While it is
    below the duration, the next tick is the rest of [step] run on the
    road in which every car at circular distance below 20 of the location
    has velocity 0 and every other car is as it was, with the timer one
    higher; once it has reached the duration, the next tick is the rest of
    [step] on the road as it is. *)
Theorem C4_incident_window (r : Road.t) (loc dur : Z) (g : rng) (k : nat) :
  0 < Road.length r -> 0 <= dur ->
  let r0 := Road.introduce_accident r loc dur in
  Road.incident r0 = Some (Road.mk_accident loc dur 0) /\
  Road.set_incident r0 (Road.incident r) = r /\
  exists rk gk,
    iterM k Road.step r0 g = Ok (rk, gk) /\
    Road.incident rk = Some (Road.mk_accident loc dur (Z.min (Z.of_nat k) dur)) /\
    (Z.of_nat k < dur ->
     exists forced,
       Forall2 (fun c c' =>
                  (circular_distance (Road.length r) loc c < 20 ->
                   c' = Car.set_velocity c 0) /\
                  (20 <= circular_distance (Road.length r) loc c -> c' = c))
               (Road.cars rk) forced /\
       Road.step rk gk
       = step_after_override
           (Road.set_incident (Road.set_cars rk forced)
              (Some (Road.mk_accident loc dur (Z.of_nat k + 1)))) gk) /\
    (dur <= Z.of_nat k -> Road.step rk gk = step_after_override rk gk).
Proof.
  intros HL Hdur r0.
  split; [reflexivity|]. split; [now destruct r|].
  exists (fst (run_spec k r0 g)), (snd (run_spec k r0 g)).
  assert (Road.incident (fst (run_spec k r0 g))
          = Some (Road.mk_accident loc dur (Z.min (Z.of_nat k) dur))) as Hinc.
  { rewrite (run_spec_incident k r0 g loc dur 0); [reflexivity | reflexivity | lia]. }
  assert (Road.length (fst (run_spec k r0 g)) = Road.length r) as Hlen
    by now rewrite run_spec_length.
  split.
  { rewrite iter_step_run by (simpl; lia). now destruct (run_spec k r0 g). }
  split; [exact Hinc|]. split.
  - intros Hk.
    exists (map (Road.stop_if_near (Road.length r) loc)
                (Road.cars (fst (run_spec k r0 g)))).
    split.
    + induction (Road.cars (fst (run_spec k r0 g))) as [|c cs IH]; simpl;
        constructor; [apply stop_if_near_spec | exact IH].
    + rewrite step_is_override_then_rest. f_equal.
      unfold Road._apply_accident_effects. rewrite Hinc. simpl.
      destruct (Z.ltb_spec (Z.min (Z.of_nat k) dur) dur); [|lia].
      rewrite Hlen. replace (Z.min (Z.of_nat k) dur) with (Z.of_nat k) by lia.
      reflexivity.
  - intros Hk. rewrite step_is_override_then_rest. f_equal.
    unfold Road._apply_accident_effects. rewrite Hinc. simpl.
    destruct (Z.ltb_spec (Z.min (Z.of_nat k) dur) dur); [lia | reflexivity].
Qed.

(** The single car of the scenario of C5, at cell [p] of a road of [L]
    cells, whatever else the road holds. *)
Definition lone_car (L p : Z) (r : Road.t) : Prop :=
  Road.length r = L /\
  exists c, Road.cars r = [c] /\
    Car.position c = p /\ Car.v_max c = 5 /\ Car.acceleration c = 1 /\
    0 <= Car.velocity c <= 5.

Lemma lone_car_step (L p : Z) (r : Road.t) (g : rng) :
  0 < L -> 0 <= p < L -> lone_car L p r ->
  lone_car L p (fst (step_spec r g)) /\
  exists c, Road.cars (fst (step_spec r g)) = [c] /\ Car.velocity c = 0.
Proof.
  intros HL Hp (Hlen & c & Hc & Hpos & Hmax & Hacc & Hv).
  assert (exists c1, Road.cars (Road._apply_accident_effects r) = [c1] /\
            Car.position c1 = p /\ Car.v_max c1 = 5 /\ Car.acceleration c1 = 1 /\
            0 <= Car.velocity c1 <= 5) as (c1 & Hc1 & Hpos1 & Hmax1 & Hacc1 & Hv1).
  { unfold Road._apply_accident_effects.
    destruct (Road.incident r) as [a|]; [|now exists c].
    destruct (_ <? _); [|now exists c]. simpl. rewrite Hc. simpl.
    eexists; split; [reflexivity|].
    unfold Road.stop_if_near. destruct (_ <? 20); simpl; repeat split; lia. }
  unfold step_spec, lone_car. cbv zeta. simpl fst. cbn [Road.length Road.cars].
  rewrite Hc1. simpl sort_by. unfold gaps_by_index. simpl combine.
  cbn [update_all_spec fst snd].
  set (u := fst (np_random_rand g)).
  assert (Car.velocity (update_spec c1 ((Car.position c1 - Car.position c1) mod Road.length r)
                                    (Road.length r) u) = 0) as Hvel.
  { unfold update_spec. simpl. rewrite Z.sub_diag, Z.mod_0_l by lia.
    unfold phase_accelerate, phase_avoid, phase_brake.
    rewrite Hmax1, Hacc1.
    destruct (Z.leb_spec 0 (Z.min (Car.velocity c1 + 1) 5)); [|lia].
    destruct (Qlt_bool _ _); reflexivity. }
  split.
  - split; [assumption|]. eexists; split; [reflexivity|].
    rewrite Hvel. unfold update_spec in *. simpl in *. rewrite Hvel.
    rewrite Z.add_0_r, Hpos1, Hlen, Z.mod_small by lia. repeat split; lia.
  - eexists; split; [reflexivity | exact Hvel].
Qed.

(** C5, as the code runs it.  On a road of at least 10 cells whose only
    car has [v_max = 5] and [acceleration = 1] (and any brake probability),
    after any positive number of ticks the car is where it was with
    velocity 0: its gap to the next car is computed as the distance to
    itself, which is 0. *)
Theorem C5_lone_car_never_moves (r : Road.t) (L p : Z) (g : rng) (k : nat) :
  10 <= L -> 0 <= p < L -> lone_car L p r ->
  exists rk gk c,
    iterM (S k) Road.step r g = Ok (rk, gk) /\
    Road.cars rk = [c] /\ Car.velocity c = 0 /\ Car.position c = p.
Proof.
  intros HL Hp Hlone.
  assert (Road.length r <> 0) as Hnz by (destruct Hlone as [-> _]; lia).
  exists (fst (run_spec (S k) r g)), (snd (run_spec (S k) r g)).
  rewrite iter_step_run by assumption.
  assert (exists c, Road.cars (fst (run_spec (S k) r g)) = [c] /\
                    Car.velocity c = 0 /\ Car.position c = p) as (c & Hc).
  { clear Hnz. revert r g Hlone. induction k as [|k IH]; intros r g Hlone.
    - cbn [run_spec].
      destruct (lone_car_step L p r g ltac:(lia) Hp Hlone)
        as ((_ & c & Hc & Hpos & _) & c' & Hc' & Hv).
      exists c. rewrite Hc in Hc'. injection Hc' as <-. auto.
    - change (run_spec (S (S k)) r g)
        with (run_spec (S k) (fst (step_spec r g)) (snd (step_spec r g))).
      apply IH. exact (proj1 (lone_car_step L p r g ltac:(lia) Hp Hlone)). }
  exists c. split; [now destruct (run_spec (S k) r g) | exact Hc].
Qed.

(** C8, as the code runs it.  A tick of a road without cars and of
    non-zero length raises nothing: time grows by one and the histories
    record a NaN average velocity, the density [n_cars / length] and a
    NaN flow. *)
Theorem C8_empty_road_records_nan (r : Road.t) (g : rng) :
  Road.cars r = [] -> Road.length r <> 0 ->
  Road.step r g
  = Ok (Road.mk (Road.length r) (Road.n_cars r) (Road.time r + 1) []
          (Road.avg_velocity_history r ++ [NaN])
          (Road.density_history r
             ++ [Fin (inject_Z (Road.n_cars r) / inject_Z (Road.length r))])
          (Road.flow_history r ++ [NaN])
          (Road.incident (Road._apply_accident_effects r)), g).
Proof.
  intros Hc HL. rewrite step_run by assumption. unfold step_spec.
  destruct (override_frame r) as (_ & En & Et & Ea & Ed & Ef & Epos).
  assert (Road.cars (Road._apply_accident_effects r) = []) as E1.
  { rewrite Hc in Epos. simpl in Epos. now apply map_eq_nil in Epos. }
  cbv zeta. rewrite E1, En, Et, Ea, Ed, Ef. reflexivity.
Qed.

End Runs.

(** ** The small generator satisfies the contract *)

Lemma py_range_length (n : Z) : length (py_range n) = Z.to_nat n.
Proof. unfold py_range. now rewrite length_map, length_seq. Qed.

Lemma toy_contract : NumPyContract Z.
Proof.
  constructor.
  - reflexivity.
  - intros s g Hs. exists s. simpl. unfold Toy.toy_seed.
    destruct (Z.leb_spec 0 s); [|lia].
    destruct (Z.ltb_spec s (2 ^ 32)); [reflexivity | lia].
  - intros stop size g Hlt. simpl. unfold Toy.toy_choice.
    destruct (size <? 0); [reflexivity|].
    destruct (Z.ltb_spec (Z.max stop 0) size); [reflexivity | lia].
  - intros stop size g Hsz. simpl. unfold Toy.toy_choice.
    destruct (Z.ltb_spec size 0); [lia|].
    destruct (Z.ltb_spec (Z.max stop 0) size); [lia|].
    eexists _, _. split; [reflexivity|].
    now rewrite length_map, py_range_length.
  - intros q. simpl. unfold Toy.toy_sqrt, Qle. simpl.
    rewrite Z.mul_1_r. apply Z.sqrt_nonneg.
Qed.

(** C4 on a road of 100 cells with cars at 45 and 80, an incident of two
    ticks at cell 50, one tick later. *)
Lemma C4_incident_window_witness :
  exists rk gk,
    iterM 1 Road.step
      (Road.introduce_accident
         (Road.mk 100 2 0 [Car.init 45 5 1 (3 # 10); Car.init 80 5 1 (3 # 10)]
                  [] [] [] None) 50 2) 7
    = Ok (rk, gk) /\
    Road.incident rk = Some (Road.mk_accident 50 2 1).
Proof.
  destruct (C4_incident_window
              (Road.mk 100 2 0 [Car.init 45 5 1 (3 # 10); Car.init 80 5 1 (3 # 10)]
                       [] [] [] None) 50 2 7 1 ltac:(simpl; lia) ltac:(lia))
    as (_ & _ & rk & gk & Hrun & Hinc & _).
  exists rk, gk. split; [exact Hrun | exact Hinc].
Defined.

(** C5 at the scenario of the specification: ten cells, one car at cell 3,
    five ticks. *)
Lemma C5_lone_car_never_moves_witness :
  exists rk gk c,
    iterM 5 Road.step (Road.mk 10 1 0 [Car.init 3 5 1 0] [] [] [] None) 7
    = Ok (rk, gk) /\
    Road.cars rk = [c] /\ Car.velocity c = 0 /\ Car.position c = 3.
Proof.
  apply (C5_lone_car_never_moves
           (Road.mk 10 1 0 [Car.init 3 5 1 0] [] [] [] None) 10 3 7 4).
  - lia.
  - lia.
  - split; [reflexivity|]. eexists; split; [reflexivity|]. simpl.
    repeat split; lia.
Defined.

(** C8 on an empty road of ten cells. *)
Lemma C8_empty_road_records_nan_witness :
  Road.step (Road.mk 10 0 0 [] [] [] [] None) 7
  = Ok (Road.mk 10 0 1 [] [NaN] [Fin (inject_Z 0 / inject_Z 10)] [NaN] None, 7).
Proof.
  exact (C8_empty_road_records_nan (Road.mk 10 0 0 [] [] [] [] None) 7
           eq_refl ltac:(simpl; lia)).
Defined.

(** C8 as the specification words it fails: stepping a road without cars
    returns, with NaN in the velocity and flow histories. *)
Lemma C8_no_empty_fleet_error :
  exists r', Road.step (Road.mk 10 0 0 [] [] [] [] None) 7 = Ok (r', 7) /\
             Road.avg_velocity_history r' = [NaN] /\
             Road.flow_history r' = [NaN].
Proof. eexists. split; [cbv; reflexivity|]. split; reflexivity. Qed.

(** ** Construction *)

Section Construction.
Context {rng : Type} `{NumPyContract rng}.

(** C7, as the code runs it.  Construction raises numpy's [ValueError]
    whenever the vehicle count exceeds the number of road cells, and for
    a vehicle count that is not negative it succeeds otherwise, whatever
    [v_max] and the brake probability are: the road is at time 0 with as
    many cars as asked, all at rest with the parameters given. *)
Theorem C7_construction (length n_cars v_max : Z) (brake_prob : Q) (g : rng) :
  0 <= n_cars ->
  (Z.max length 0 < n_cars ->
   Road.init length n_cars v_max brake_prob g = Raise ValueError) /\
  (n_cars <= Z.max length 0 ->
   exists r g',
     Road.init length n_cars v_max brake_prob g = Ok (r, g') /\
     Road.length r = length /\ Road.n_cars r = n_cars /\ Road.time r = 0 /\
     List.length (Road.cars r) = Z.to_nat n_cars /\
     Forall (fun c => Car.velocity c = 0 /\ Car.v_max c = v_max /\
                      Car.acceleration c = 1 /\ Car.brake_prob c = brake_prob)
            (Road.cars r)).
Proof.
  intros Hn. split.
  - intros Hmany. unfold Road.init, bind.
    now rewrite choice_too_many.
  - intros Hfit.
    destruct (choice_returns length n_cars g ltac:(lia)) as (l & g' & Hch & Hlen).
    eexists _, g'. unfold Road.init, bind. rewrite Hch. unfold ret.
    split; [reflexivity|]. simpl. repeat split.
    + rewrite length_map. unfold sorted. now rewrite sort_by_length.
    + apply Forall_map. apply Forall_forall. intros x _. simpl. auto.
Qed.

(** C10. With a seed given, a single run does not depend on the state the
    generator was in before the call: two runs of the same configuration
    and seed end alike, with the same road (the histories of every vehicle
    and of the system included) or the same exception. *)
Theorem C10_seeded_run_deterministic
    (n_steps road_length n_cars v_max : Z) (brake_prob : Q) (seed : Z)
    (g1 g2 : rng) :
  Simulation.run_simulation n_steps road_length n_cars v_max brake_prob
                            (Some seed) g1
  = Simulation.run_simulation n_steps road_length n_cars v_max brake_prob
                              (Some seed) g2.
Proof.
  unfold Simulation.run_simulation, bind.
  now rewrite (seed_resets seed g1 g2).
Qed.

End Construction.

(** C7 with ten cells and two vehicles. *)
Lemma C7_construction_witness :
  exists r g',
    Road.init 10 2 5 (3 # 10) 7 = Ok (r, g') /\
    Road.length r = 10 /\ Road.n_cars r = 2 /\ Road.time r = 0 /\
    List.length (Road.cars r) = 2%nat /\
    Forall (fun c => Car.velocity c = 0 /\ Car.v_max c = 5 /\
                     Car.acceleration c = 1 /\ Car.brake_prob c = 3 # 10)
           (Road.cars r).
Proof.
  exact (proj2 (@C7_construction Z _ toy_contract 10 2 5 (3 # 10) 7 ltac:(lia))
               ltac:(lia)).
Defined.

(** C7 as the specification words it fails: a negative [v_max] and a brake
    probability above 1 are accepted, and so is a road without cells and
    without cars. *)
Lemma C7_invalid_configurations_accepted :
  (exists r g', Road.init 10 2 (-1) (13 # 10) 7 = Ok (r, g')) /\
  (exists r g', Road.init 0 0 5 (3 # 10) 7 = Ok (r, g')).
Proof. split; eexists _, _; cbv; reflexivity. Qed.

(** C10 from two different generator states, seed 42. *)
Lemma C10_seeded_run_deterministic_witness :
  Simulation.run_simulation 3 10 3 5 (3 # 10) (Some 42) 0
  = Simulation.run_simulation 3 10 3 5 (3 # 10) (Some 42) 12345.
Proof.
  exact (@C10_seeded_run_deterministic Z _ toy_contract 3 10 3 5 (3 # 10) 42
           0 12345).
Defined.

(** ** Positions around the ring *)

Lemma ring_gaps_length (L first : Z) (ps : list Z) :
  length (ring_gaps L first ps) = length ps.
Proof.
  induction ps as [|p [|q rest] IH]; simpl in *; try reflexivity.
  now rewrite IH.
Qed.

Lemma ring_gaps_nth (L first : Z) (ps : list Z) (i : nat) :
  (i < length ps)%nat ->
  nth i (ring_gaps L first ps) 0
  = ((if (S i <? length ps)%nat then nth (S i) ps 0 else first) - nth i ps 0) mod L.
Proof.
  revert i. induction ps as [|p [|q rest] IH]; intros i Hi.
  - simpl in Hi. lia.
  - simpl in Hi. assert (i = O) as -> by lia. reflexivity.
  - destruct i as [|j].
    + reflexivity.
    + change (ring_gaps L first (p :: q :: rest))
        with ((q - p) mod L :: ring_gaps L first (q :: rest)).
      cbn [nth]. rewrite IH by (simpl in *; lia).
      change (length (p :: q :: rest)) with (S (length (q :: rest))).
      destruct (Nat.ltb_spec (S j) (length (q :: rest)));
        destruct (Nat.ltb_spec (S (S j)) (S (length (q :: rest))));
        try lia; reflexivity.
Qed.

(** The gaps [Road.step] computes by index are the gaps around the ring. *)
Lemma gaps_by_index_ring (L : Z) (ps : list Z) :
  gaps_by_index L ps = ring_gaps L (nth 0 ps 0) ps.
Proof.
  apply (nth_ext _ _ 0 0).
  - now rewrite gaps_by_index_length, ring_gaps_length.
  - intros i Hi. rewrite gaps_by_index_length in Hi.
    rewrite gaps_by_index_nth, ring_gaps_nth by assumption.
    replace (i + 1)%nat with (S i) by lia.
    destruct (Nat.ltb_spec (S i) (length ps)) as [Hlt|Hge].
    + now rewrite Nat.mod_small.
    + assert (S i = length ps) as -> by lia.
      now rewrite Nat.Div0.mod_same.
Qed.

(** A car at [fst pg] with gap [snd pg] ahead moved to [q]: forward, by
    less than the gap (by nothing when the gap is 0). *)
Definition advanced (L : Z) (pg : Z * Z) (q : Z) : Prop :=
  exists v, 0 <= v <= Z.max (snd pg - 1) 0 /\ q = (fst pg + v) mod L.

Lemma mod_wrap (a L : Z) :
  0 < L -> 0 <= a < 2 * L ->
  (a < L /\ a mod L = a) \/ (L <= a /\ a mod L = a - L).
Proof.
  intros HL Ha. destruct (Z.lt_ge_cases a L) as [Hlt|Hge].
  - left. split; [assumption|]. apply Z.mod_small. lia.
  - right. split; [assumption|].
    replace a with (a - L + 1 * L) at 1 by lia.
    rewrite Z.mod_add by lia. apply Z.mod_small. lia.
Qed.

Lemma ring_advance (L first : Z) :
  0 < L -> 0 <= first ->
  forall ps qs,
    StronglySorted Z.lt ps ->
    Forall (fun p => first <= p < L) ps ->
    Forall2 (advanced L) (combine ps (ring_gaps L first ps)) qs ->
    NoDup qs /\
    match ps with
    | [] => True
    | x :: _ => Forall (fun q => x <= q < L \/ 0 <= q < first) qs
    end.
Proof.
  intros HL Hfirst ps.
  induction ps as [|x [|y rest] IH]; intros qs Hsorted Hrange Hadv.
  - inversion Hadv; subst. split; constructor.
  - simpl in Hadv. inversion Hadv as [|pg q l l' (v & Hv & Hq) Hrest]; subst.
    inversion Hrest; subst. cbn [fst snd] in *.
    split; [repeat constructor; intros []|].
    constructor; [|constructor].
    inversion Hrange as [|? ? Hx _]; subst.
    destruct (Z.eq_dec x first) as [->|Hne].
    + rewrite Z.sub_diag, Z.mod_0_l in Hv by lia.
      assert (v = 0) as -> by lia. rewrite Z.add_0_r, Z.mod_small by lia.
      left. lia.
    + assert ((first - x) mod L = first - x + L) as Egap.
      { transitivity ((first - x + 1 * L) mod L);
          [now rewrite Z.mod_add by lia | rewrite Z.mod_small; lia]. }
      rewrite Egap in Hv.
      destruct (mod_wrap (x + v) L HL ltac:(lia)) as [[Hlt ->]|[Hge ->]]; lia.
  - change (ring_gaps L first (x :: y :: rest))
      with ((y - x) mod L :: ring_gaps L first (y :: rest)) in Hadv.
    cbn [combine] in Hadv.
    inversion Hadv as [|pg q l l' (v & Hv & Hq) Hrest]; subst.
    inversion Hsorted as [|? ? Hs' Hlt]; subst.
    inversion Hrange as [|? ? Hx Hr']; subst.
    destruct (IH l' Hs' Hr' Hrest) as (Hnd & Hall).
    assert (x < y) as Hxy by (inversion Hlt; assumption).
    assert (y < L) as HyL by (inversion Hr'; lia).
    cbn [fst snd] in *. rewrite (Z.mod_small (y - x)) in Hv by lia.
    assert ((x + v) mod L = x + v) as Eq by (apply Z.mod_small; lia).
    rewrite Eq.
    split.
    + constructor; [|assumption].
      intros Hin. rewrite Forall_forall in Hall.
      specialize (Hall _ Hin). lia.
    + constructor; [left; lia|].
      eapply Forall_impl; [|exact Hall]. intros q. cbv beta. lia.
Qed.

Lemma ring_gaps_positive (L first : Z) :
  0 <= first ->
  forall ps,
    StronglySorted Z.lt ps ->
    Forall (fun p => first < p < L) ps ->
    Forall (fun d => 0 < d) (ring_gaps L first ps).
Proof.
  intros Hfirst ps.
  induction ps as [|x [|y rest] IH]; intros Hsorted Hrange.
  - constructor.
  - inversion Hrange; subst. simpl. constructor; [|constructor].
    rewrite <- (Z.mod_add (first - x) 1 L) by lia.
    rewrite Z.mod_small; lia.
  - change (ring_gaps L first (x :: y :: rest))
      with ((y - x) mod L :: ring_gaps L first (y :: rest)).
    inversion Hsorted as [|? ? Hs' Hlt]; subst.
    inversion Hrange as [|? ? Hx Hr']; subst.
    constructor; [|now apply IH].
    assert (x < y) by (inversion Hlt; assumption).
    assert (y < L) by (inversion Hr'; lia).
    rewrite Z.mod_small; lia.
Qed.

Lemma strictly_sorted (l : list Z) :
  StronglySorted Z.le l -> NoDup l -> StronglySorted Z.lt l.
Proof.
  induction 1 as [|x l Hs IH Hall]; intros Hnd; constructor.
  - apply IH. now inversion Hnd.
  - inversion Hnd as [|? ? Hnotin _]; subst.
    rewrite Forall_forall in *. intros y Hy.
    specialize (Hall y Hy). assert (x <> y) by congruence. lia.
Qed.

Lemma sorted_positions (s : list Car.t) :
  Sorted (key_le Car.position) s ->
  StronglySorted Z.le (map Car.position s).
Proof.
  intros Hs. apply Sorted_StronglySorted in Hs.
  - induction Hs as [|c s Hs IH Hall]; simpl; constructor; [assumption|].
    apply Forall_map. exact Hall.
  - intros a b c. unfold key_le. lia.
Qed.

Lemma update_spec_advance (L : Z) (c : Car.t) (d : Z) (u : Q) :
  car_ok L c ->
  0 <= Car.velocity (update_spec c d L u) <= Z.max (d - 1) 0 /\
  Car.position (update_spec c d L u)
  = (Car.position c + Car.velocity (update_spec c d L u)) mod L.
Proof.
  intros (Hv & Hp & Ha). split; [|reflexivity].
  unfold update_spec. cbn [Car.velocity].
  assert (0 <= phase_accelerate c) as H1 by (unfold phase_accelerate; lia).
  assert (0 <= phase_avoid d (phase_accelerate c) <= Z.max (d - 1) 0) as H2
    by (unfold phase_avoid; destruct (Z.leb_spec d (phase_accelerate c)); lia).
  unfold phase_brake. destruct (Qlt_bool _ _); lia.
Qed.

Lemma cars_advanced (L : Z) (s : list Car.t) (gaps : list Z) (cs : list Car.t) :
  Forall (car_ok L) s ->
  Forall2 (fun cd c' => exists u, c' = update_spec (fst cd) (snd cd) L u)
          (combine s gaps) cs ->
  Forall2 (advanced L) (combine (map Car.position s) gaps) (map Car.position cs).
Proof.
  revert gaps cs. induction s as [|c s IH]; intros gaps cs Hok Hupd.
  - inversion Hupd; subst. constructor.
  - destruct gaps as [|d gaps]; simpl in *.
    + inversion Hupd; subst. constructor.
    + inversion Hupd as [|? c' ? cs' (u & ->) Hrest]; subst.
      inversion Hok; subst. simpl. constructor; [|now apply IH].
      exists (Car.velocity (update_spec c d L u)).
      now apply update_spec_advance.
Qed.

Lemma cars_advance_less_than_gap (L : Z) (s : list Car.t) (gaps : list Z)
    (cs : list Car.t) :
  Forall (car_ok L) s ->
  Forall (fun d => 0 < d) gaps ->
  Forall2 (fun cd c' => exists u, c' = update_spec (fst cd) (snd cd) L u)
          (combine s gaps) cs ->
  Forall2 (fun cd c' =>
             0 <= Car.velocity c' < snd cd /\
             Car.position c' = (Car.position (fst cd) + Car.velocity c') mod L)
          (combine s gaps) cs.
Proof.
  revert gaps cs. induction s as [|c s IH]; intros gaps cs Hok Hpos Hupd.
  - inversion Hupd; subst. constructor.
  - destruct gaps as [|d gaps]; simpl in *.
    + inversion Hupd; subst. constructor.
    + inversion Hupd as [|? c' ? cs' (u & ->) Hrest]; subst.
      inversion Hok; subst. inversion Hpos; subst.
      constructor; [|now apply IH].
      cbn [fst snd].
      destruct (update_spec_advance L c d u ltac:(assumption)) as (Hv & Hp).
      split; [lia | exact Hp].
Qed.

Lemma sorted_ring_range (L : Z) (ps : list Z) :
  StronglySorted Z.lt ps ->
  Forall (fun p => 0 <= p < L) ps ->
  0 <= nth 0 ps 0 /\ Forall (fun p => nth 0 ps 0 <= p < L) ps.
Proof.
  intros Hs Hr. destruct ps as [|x rest]; simpl.
  - split; [lia | constructor].
  - inversion Hs as [|? ? _ Hlt]; subst. inversion Hr as [|? ? Hx Hrest]; subst.
    split; [lia|]. constructor; [lia|].
    rewrite Forall_forall in *. intros p Hp.
    specialize (Hlt p Hp). specialize (Hrest p Hp). lia.
Qed.

Section Distinct.
Context {rng : Type} `{NumPy rng}.

(** C6. On a road of the data model (positive length, every car within its
    bounds) whose cars are at pairwise distinct positions, a tick returns
    and leaves the positions pairwise distinct, with or without an
    incident and whatever is drawn; with at least two cars, every car
    moved forward by its new velocity, which is less than the gap it had
    before the tick. *)
Theorem C6_positions_stay_distinct (r : Road.t) (g : rng) :
  0 < Road.length r ->
  Forall (car_ok (Road.length r)) (Road.cars r) ->
  NoDup (map Car.position (Road.cars r)) ->
  let L := Road.length r in
  let s := sort_by Car.position (Road.cars (Road._apply_accident_effects r)) in
  let gaps := gaps_by_index L (map Car.position s) in
  exists r' g',
    Road.step r g = Ok (r', g') /\
    NoDup (map Car.position (Road.cars r')) /\
    ((2 <= List.length (Road.cars r))%nat ->
     Forall2 (fun cd c' =>
                0 <= Car.velocity c' < snd cd /\
                Car.position c'
                = (Car.position (fst cd) + Car.velocity c') mod L)
             (combine s gaps) (Road.cars r')).
Proof.
  intros HL Hok Hnd L s gaps.
  exists (fst (step_spec r g)), (snd (step_spec r g)).
  split; [rewrite step_run by lia; now destruct (step_spec r g)|].
  destruct (override_frame r) as (_ & _ & _ & _ & _ & _ & Epos).
  pose proof (override_bounds r Hok) as Hok1.
  pose proof (sort_by_perm Car.position (Road.cars (Road._apply_accident_effects r)))
    as Hperm.
  fold s in Hperm. fold L in Hok1.
  assert (Forall (car_ok L) s) as Hoks.
  { rewrite Forall_forall in *. intros c Hc. apply Hok1.
    eapply Permutation_in; [symmetry; exact Hperm | exact Hc]. }
  assert (NoDup (map Car.position s)) as Hnds.
  { eapply Permutation_NoDup; [apply Permutation_map; exact Hperm|].
    now rewrite Epos. }
  assert (StronglySorted Z.lt (map Car.position s)) as Hsorted.
  { apply strictly_sorted; [|assumption].
    apply sorted_positions, sort_by_sorted. }
  assert (Forall (fun p => 0 <= p < L) (map Car.position s)) as Hrange0.
  { apply Forall_map. eapply Forall_impl; [|exact Hoks].
    intros c (_ & Hp & _). exact Hp. }
  destruct (sorted_ring_range L _ Hsorted Hrange0) as (Hfirst & Hrange).
  pose proof (update_all_spec_Forall2 (combine s gaps) L g) as Hupd.
  change (Road.cars (fst (step_spec r g)))
    with (fst (update_all_spec (combine s gaps) L g)).
  split.
  - apply cars_advanced in Hupd; [|assumption].
    unfold gaps in Hupd at 1. rewrite gaps_by_index_ring in Hupd.
    exact (proj1 (ring_advance L _ HL Hfirst _ _ Hsorted Hrange Hupd)).
  - intros Hn. apply cars_advance_less_than_gap; [assumption | | assumption].
    unfold gaps. rewrite gaps_by_index_ring.
    assert (2 <= length (map Car.position s))%nat as Hn'.
    { rewrite length_map. unfold s. rewrite sort_by_length.
      rewrite <- (length_map Car.position), Epos, length_map. exact Hn. }
    destruct (map Car.position s) as [|x [|y rest]]; simpl in Hn'; try lia.
    change (ring_gaps L (nth 0 (x :: y :: rest) 0) (x :: y :: rest))
      with ((y - x) mod L :: ring_gaps L x (y :: rest)).
    inversion Hsorted as [|? ? Hs' Hlt]; subst.
    inversion Hrange0 as [|? ? Hx Hr']; subst.
    constructor.
    + assert (x < y) by (inversion Hlt; assumption).
      assert (y < L) by (inversion Hr'; lia).
      rewrite Z.mod_small; lia.
    + apply ring_gaps_positive; [lia | assumption |].
      rewrite Forall_forall in *. intros p Hp.
      specialize (Hlt p Hp). specialize (Hr' p Hp). lia.
Qed.

End Distinct.

(** C6 on a road of ten cells with cars at 2, 3 and 9, the middle one
    within an incident. *)
Lemma C6_positions_stay_distinct_witness :
  exists r' g',
    Road.step (Road.mk 10 3 0
                 [Car.mk 9 2 5 1 (3 # 10) [] []; Car.mk 2 5 5 1 (3 # 10) [] [];
                  Car.mk 3 0 5 1 (3 # 10) [] []]
                 [] [] [] (Some (Road.mk_accident 3 4 0))) 7
    = Ok (r', g') /\
    NoDup (map Car.position (Road.cars r')).
Proof.
  destruct (C6_positions_stay_distinct
              (Road.mk 10 3 0
                 [Car.mk 9 2 5 1 (3 # 10) [] []; Car.mk 2 5 5 1 (3 # 10) [] [];
                  Car.mk 3 0 5 1 (3 # 10) [] []]
                 [] [] [] (Some (Road.mk_accident 3 4 0))) 7
              ltac:(simpl; lia)
              ltac:(repeat constructor; simpl; lia)
              ltac:(repeat constructor; simpl; intuition lia))
    as (r' & g' & Hstep & Hnd & _).
  exists r', g'. split; [exact Hstep | exact Hnd].
Defined.

(** ** Means of floats *)

Definition is_fin (x : npfloat) : Prop := exists q, x = Fin q.

Definition fin_nonneg (x : npfloat) : Prop := exists q, x = Fin q /\ (0 <= q)%Q.

Lemma fsum_fin (l : list npfloat) :
  Forall is_fin l -> is_fin (fold_right fadd (Fin 0) l).
Proof.
  induction 1 as [|x l (a & ->) _ (s & IH)]; simpl.
  - now exists 0%Q.
  - rewrite IH. now eexists.
Qed.

Lemma fsum_nonneg (l : list npfloat) :
  Forall fin_nonneg l -> fin_nonneg (fold_right fadd (Fin 0) l).
Proof.
  induction 1 as [|x l (a & -> & Ha) _ (s & IH & Hs)]; simpl.
  - exists 0%Q. split; [reflexivity | apply Qle_refl].
  - rewrite IH. eexists; split; [reflexivity|].
    change 0%Q with (0 + 0)%Q. now apply Qplus_le_compat.
Qed.

Lemma np_mean_fin (l : list npfloat) :
  l <> [] -> Forall is_fin l -> is_fin (np_mean l).
Proof.
  intros Hne Hall. destruct l as [|x l]; [congruence|].
  unfold np_mean. destruct (fsum_fin _ Hall) as (s & ->). now eexists.
Qed.

Lemma np_mean_nonneg (l : list npfloat) :
  l <> [] -> Forall fin_nonneg l -> fin_nonneg (np_mean l).
Proof.
  intros Hne Hall. destruct l as [|x l]; [congruence|].
  unfold np_mean. destruct (fsum_nonneg _ Hall) as (s & -> & Hs).
  eexists; split; [reflexivity|].
  apply Qmult_le_0_compat; [assumption|].
  apply Qinv_le_0_compat. unfold Qle. simpl. lia.
Qed.

Lemma fin_nonneg_is_fin (x : npfloat) : fin_nonneg x -> is_fin x.
Proof. intros (q & -> & _). now exists q. Qed.

Lemma np_std_nonneg {rng : Type} `{NumPyContract rng} (l : list npfloat) :
  l <> [] -> Forall is_fin l -> fin_nonneg (np_std l).
Proof.
  intros Hne Hall. unfold np_std.
  destruct (np_mean_fin l Hne Hall) as (m & ->).
  set (dev := fun x => fmul (fadd x (Fin (- m))) (fadd x (Fin (- m)))).
  assert (is_fin (np_mean (map dev l))) as (v & ->).
  { apply np_mean_fin.
    - destruct l; [congruence | discriminate].
    - apply Forall_map. eapply Forall_impl; [|exact Hall].
      intros x (q & ->). unfold dev. simpl. now eexists. }
  eexists; split; [reflexivity | apply sqrt_nonneg].
Qed.

(** ** Dictionaries *)

(** The keys of a dictionary after [d[k] = ...]. *)
Definition key_add (ks : list Q) (k : Q) : list Q :=
  if existsb (fun k' => Qeq_bool k' k) ks then ks else ks ++ [k].

Lemma dict_set_keys (d : Simulation.dict) (k : Q) (v : Simulation.aggregate) :
  map fst (Simulation.dict_set d k v) = key_add (map fst d) k.
Proof.
  unfold key_add. induction d as [|[k0 v0] d IH]; simpl.
  - reflexivity.
  - destruct (Qeq_bool k0 k); simpl; [reflexivity|].
    rewrite IH. now destruct (existsb _ _).
Qed.

Lemma dict_get_set (d : Simulation.dict) (k k' : Q) (v : Simulation.aggregate) :
  Simulation.dict_get (Simulation.dict_set d k v) k'
  = if Qeq_bool k k' then Some v else Simulation.dict_get d k'.
Proof.
  induction d as [|[k0 v0] d IH]; simpl.
  - reflexivity.
  - destruct (Qeq_bool k0 k) eqn:E0; simpl.
    + apply Qeq_bool_iff in E0.
      assert (Qeq_bool k0 k' = Qeq_bool k k') as ->.
      { apply eq_true_iff_eq. rewrite !Qeq_bool_iff. now rewrite E0. }
      now destruct (Qeq_bool k k').
    + rewrite IH.
      destruct (Qeq_bool k0 k') eqn:E1; [|reflexivity].
      destruct (Qeq_bool k k') eqn:E2; [|reflexivity].
      apply Qeq_bool_iff in E1, E2.
      assert (Qeq_bool k0 k = true) by (apply Qeq_bool_iff; now rewrite E1, E2).
      congruence.
Qed.

Lemma dict_get_Qeq (d : Simulation.dict) (k k' : Q) :
  (k == k')%Q -> Simulation.dict_get d k = Simulation.dict_get d k'.
Proof.
  intros E. induction d as [|[k0 v0] d IH]; simpl; [reflexivity|].
  assert (Qeq_bool k0 k = Qeq_bool k0 k') as ->.
  { apply eq_true_iff_eq. rewrite !Qeq_bool_iff. now rewrite E. }
  now rewrite IH.
Qed.

Lemma key_add_length (ks : list Q) (k : Q) :
  (length (key_add ks k) <= S (length ks))%nat.
Proof.
  unfold key_add. destruct (existsb _ _); [lia|].
  rewrite length_app. simpl. lia.
Qed.

Lemma keys_length (ds ks : list Q) :
  (length (fold_left key_add ds ks) <= length ks + length ds)%nat.
Proof.
  revert ks. induction ds as [|d ds IH]; intros ks; simpl; [lia|].
  specialize (IH (key_add ks d)). pose proof (key_add_length ks d). lia.
Qed.

Lemma keys_distinct (ds ks : list Q) :
  Forall (fun k => Forall (fun d => ~ (k == d)%Q) ds) ks ->
  ForallOrdPairs (fun a b => ~ (a == b)%Q) ds ->
  fold_left key_add ds ks = ks ++ ds.
Proof.
  revert ks. induction ds as [|d ds IH]; intros ks Hks Hds; simpl.
  - now rewrite app_nil_r.
  - inversion Hds as [|? ? Hd Hds']; subst.
    assert (key_add ks d = ks ++ [d]) as ->.
    { unfold key_add.
      destruct (existsb (fun k' => Qeq_bool k' d) ks) eqn:E; [|reflexivity].
      apply existsb_exists in E. destruct E as (k & Hin & Hk).
      apply Qeq_bool_iff in Hk. rewrite Forall_forall in Hks.
      specialize (Hks k Hin). inversion Hks; subst. contradiction. }
    rewrite IH; [now rewrite <- app_assoc | | assumption].
    apply Forall_app. split.
    + eapply Forall_impl; [|exact Hks]. intros k Hk. now inversion Hk.
    + constructor; [exact Hd | constructor].
Qed.

(** ** What a run keeps true *)

(** The velocity of a car is within its bounds. *)
Definition speed_ok (c : Car.t) : Prop :=
  0 <= Car.velocity c <= Car.v_max c /\ 0 <= Car.acceleration c.

(** A road with [n] cars on [L] cells, all within their velocity bounds,
    whose velocity and flow histories hold non-negative numbers. *)
Definition run_inv (L n : Z) (r : Road.t) : Prop :=
  Road.length r = L /\ Road.n_cars r = n /\ Road.cars r <> [] /\
  Forall speed_ok (Road.cars r) /\
  Forall fin_nonneg (Road.avg_velocity_history r) /\
  Forall fin_nonneg (Road.flow_history r).

Lemma update_spec_speed (c : Car.t) (d L : Z) (u : Q) :
  speed_ok c -> speed_ok (update_spec c d L u).
Proof.
  intros (Hv & Ha). unfold speed_ok, update_spec; simpl.
  assert (0 <= phase_accelerate c <= Car.v_max c) as H1
    by (unfold phase_accelerate; lia).
  assert (0 <= phase_avoid d (phase_accelerate c) <= Car.v_max c) as H2
    by (unfold phase_avoid; destruct (Z.leb_spec d (phase_accelerate c)); lia).
  unfold phase_brake. destruct (Qlt_bool _ _); lia.
Qed.

Lemma override_speed (r : Road.t) :
  Forall speed_ok (Road.cars r) ->
  Forall speed_ok (Road.cars (Road._apply_accident_effects r)).
Proof.
  intros Hall. unfold Road._apply_accident_effects.
  destruct (Road.incident r) as [a|]; [|assumption].
  destruct (_ <? _); [|assumption]. simpl.
  apply Forall_map. eapply Forall_impl; [|exact Hall].
  intros c (Hv & Ha). unfold Road.stop_if_near.
  destruct (_ <? 20); unfold speed_ok; simpl; lia.
Qed.

Lemma updated_speed (L : Z) (s : list Car.t) (gaps : list Z) (cs : list Car.t) :
  Forall speed_ok s ->
  Forall2 (fun cd c' => exists u, c' = update_spec (fst cd) (snd cd) L u)
          (combine s gaps) cs ->
  Forall speed_ok cs.
Proof.
  revert gaps cs. induction s as [|c s IH]; intros gaps cs Hok Hupd.
  - inversion Hupd; subst. constructor.
  - destruct gaps as [|d gaps]; simpl in *.
    + inversion Hupd; subst. constructor.
    + inversion Hupd as [|? c' ? cs' (u & ->) Hrest]; subst.
      inversion Hok; subst.
      constructor; [now apply update_spec_speed | now apply (IH gaps)].
Qed.

Lemma velocities_nonneg (cs : list Car.t) :
  Forall speed_ok cs ->
  Forall fin_nonneg (map float_of_int (map Car.velocity cs)).
Proof.
  intros Hall. rewrite map_map. apply Forall_map.
  eapply Forall_impl; [|exact Hall].
  intros c ((Hv & _) & _). eexists; split; [reflexivity|].
  unfold Qle. simpl. lia.
Qed.

Section RunInvariant.
Context {rng : Type} `{NumPy rng}.

Lemma step_spec_cars_length (r : Road.t) (g : rng) :
  length (Road.cars (fst (step_spec r g))) = length (Road.cars r).
Proof.
  unfold step_spec. cbn [fst Road.cars].
  rewrite <- (Forall2_length (update_all_spec_Forall2 _ _ _)).
  rewrite length_combine, gaps_by_index_length, length_map, Nat.min_id.
  rewrite sort_by_length.
  destruct (override_frame r) as (_ & _ & _ & _ & _ & _ & Epos).
  now rewrite <- (length_map Car.position), Epos, length_map.
Qed.

Lemma step_spec_histories (r : Road.t) (g : rng) :
  length (Road.avg_velocity_history (fst (step_spec r g)))
    = S (length (Road.avg_velocity_history r)) /\
  length (Road.flow_history (fst (step_spec r g)))
    = S (length (Road.flow_history r)).
Proof.
  destruct (override_frame r) as (_ & _ & _ & Ea & _ & Ef & _).
  unfold step_spec. cbn [fst Road.avg_velocity_history Road.flow_history].
  rewrite !length_app, Ea, Ef. simpl. lia.
Qed.

Lemma step_spec_inv (L n : Z) (r : Road.t) (g : rng) :
  0 < L -> 0 <= n -> run_inv L n r -> run_inv L n (fst (step_spec r g)).
Proof.
  intros HL Hn (Hlen & Hcount & Hne & Hspeed & Havg & Hflow).
  pose proof (step_spec_cars_length r g) as Hcl.
  assert (Road.cars (fst (step_spec r g)) <> []) as Hne'.
  { intros E. rewrite E in Hcl. destruct (Road.cars r); [congruence | discriminate]. }
  assert (Forall speed_ok (Road.cars (fst (step_spec r g)))) as Hspeed'.
  { unfold step_spec. cbn [fst Road.cars].
    eapply updated_speed; [|apply update_all_spec_Forall2].
    pose proof (override_speed r Hspeed) as H1.
    rewrite Forall_forall in *. intros c Hc. apply H1.
    eapply Permutation_in; [symmetry; apply sort_by_perm | exact Hc]. }
  assert (fin_nonneg (np_mean (map float_of_int
            (map Car.velocity (Road.cars (fst (step_spec r g))))))) as Hmean.
  { apply np_mean_nonneg; [|now apply velocities_nonneg].
    destruct (Road.cars (fst (step_spec r g))); [congruence | discriminate]. }
  destruct (override_frame r) as (_ & En & _ & Ea & _ & Ef & _).
  unfold run_inv. repeat split; try assumption.
  - unfold step_spec. cbn [fst Road.n_cars]. congruence.
  - unfold step_spec. cbn [fst Road.avg_velocity_history].
    rewrite Ea. apply Forall_app. split; [assumption|].
    constructor; [exact Hmean | constructor].
  - unfold step_spec. cbn [fst Road.flow_history].
    rewrite Ef. apply Forall_app. split; [assumption|].
    constructor; [|constructor].
    unfold step_spec in Hmean. cbn [fst Road.cars] in Hmean.
    destruct Hmean as (a & -> & Ha). rewrite En, Hcount, Hlen.
    eexists; split; [reflexivity|].
    apply Qmult_le_0_compat; [|assumption].
    apply Qmult_le_0_compat; [unfold Qle; simpl; lia|].
    apply Qinv_le_0_compat. unfold Qle. simpl. lia.
Qed.

Lemma run_spec_inv (L n : Z) (k : nat) (r : Road.t) (g : rng) :
  0 < L -> 0 <= n -> run_inv L n r ->
  run_inv L n (fst (run_spec k r g)) /\
  length (Road.avg_velocity_history (fst (run_spec k r g)))
    = (length (Road.avg_velocity_history r) + k)%nat /\
  length (Road.flow_history (fst (run_spec k r g)))
    = (length (Road.flow_history r) + k)%nat.
Proof.
  intros HL Hn. revert r g. induction k as [|k IH]; intros r g Hinv.
  - simpl. rewrite !Nat.add_0_r. auto.
  - cbn [run_spec].
    destruct (IH (fst (step_spec r g)) (snd (step_spec r g))
                 (step_spec_inv L n r g HL Hn Hinv)) as (Hinv' & Ha & Hf).
    destruct (step_spec_histories r g) as (Ea & Ef).
    rewrite Ha, Hf, Ea, Ef. split; [assumption | lia].
Qed.

End RunInvariant.

(** ** The density scan *)

Lemma py_range_In (n x : Z) : In x (py_range n) -> 0 <= x < n.
Proof.
  unfold py_range. intros Hin. apply in_map_iff in Hin.
  destruct Hin as (i & <- & Hi). apply in_seq in Hi. lia.
Qed.

Lemma Forall_skipn_keeps {A : Type} (P : A -> Prop) (k : nat) (l : list A) :
  Forall P l -> Forall P (skipn k l).
Proof.
  revert l. induction k as [|k IH]; intros l Hall; [exact Hall|].
  destruct l as [|x l]; [constructor|]. simpl. apply IH. now inversion Hall.
Qed.

Lemma skipn_nonempty {A : Type} (k : nat) (l : list A) :
  (k < length l)%nat -> skipn k l <> [].
Proof.
  intros Hk E. pose proof (length_skipn k l) as Hlen. rewrite E in Hlen.
  simpl in Hlen. lia.
Qed.

Lemma py_slice_from_nonneg {A : Type} (start : Z) (l : list A) :
  0 <= start -> py_slice_from start l = skipn (Z.to_nat start) l.
Proof.
  intros Hs. unfold py_slice_from. destruct (Z.ltb_spec start 0); [lia | reflexivity].
Qed.

(** [int] truncates: the floor of a float that is not negative, the
    ceiling of a negative one; so it depends on the value only. *)
Lemma py_int_floor_ceiling (x : Q) :
  py_int x = if Qnum x <? 0 then Qceiling x else Qfloor x.
Proof.
  destruct x as [n d]. unfold py_int, Qceiling, Qfloor. simpl.
  destruct (Z.ltb_spec n 0) as [Hneg|Hpos].
  - rewrite <- (Z.opp_involutive n) at 1.
    rewrite Z.quot_opp_l by lia. f_equal.
    apply Z.quot_div_nonneg; lia.
  - apply Z.quot_div_nonneg; lia.
Qed.

Lemma py_int_comp (x y : Q) : (x == y)%Q -> py_int x = py_int y.
Proof.
  intros E. rewrite !py_int_floor_ceiling.
  assert ((Qnum x <? 0) = (Qnum y <? 0)) as ->.
  { unfold Qeq in E.
    destruct (Z.ltb_spec (Qnum x) 0); destruct (Z.ltb_spec (Qnum y) 0);
      try reflexivity; nia. }
  destruct (Qnum y <? 0); [unfold Qceiling|]; now rewrite E.
Qed.

Section Scan.
Context {rng : Type} `{NumPyContract rng}.

Lemma mapM_Forall2 {A B : Type} (f : A -> M rng B) (P : A -> B -> Prop)
    (l : list A) :
  (forall x g, In x l -> exists y g', f x g = Ok (y, g') /\ P x y) ->
  forall g, exists ys g', mapM f l g = Ok (ys, g') /\ Forall2 P l ys.
Proof.
  induction l as [|x l IH]; intros Hf g; simpl.
  - exists [], g. split; [reflexivity | constructor].
  - destruct (Hf x g ltac:(now left)) as (y & g1 & Hx & Hp).
    destruct (IH (fun x' g' Hin => Hf x' g' (or_intror Hin)) g1)
      as (ys & g2 & Hl & Hps).
    exists (y :: ys), g2. unfold bind. rewrite Hx, Hl.
    split; [reflexivity | now constructor].
Qed.

Lemma seeded_run_ok (n_steps L n seed : Z) (g : rng) :
  0 <= seed < 2 ^ 32 -> 1 <= n <= L ->
  exists road g',
    Simulation.run_simulation n_steps L n 5 (3 # 10) (Some seed) g = Ok (road, g') /\
    run_inv L n road /\
    length (Road.avg_velocity_history road) = Z.to_nat n_steps /\
    length (Road.flow_history road) = Z.to_nat n_steps.
Proof.
  intros Hseed Hn.
  destruct (seed_accepts seed g Hseed) as (g1 & Hs).
  destruct (choice_returns L n g1 ltac:(lia)) as (l & g2 & Hc & Hl).
  set (road0 := Road.mk L n 0
                  (map (fun pos => Car.init pos 5 1 (3 # 10)) (sorted l))
                  [] [] [] None).
  assert (run_inv L n road0) as Hinv0.
  { unfold run_inv, road0. simpl. repeat split; try constructor.
    - intros E. apply map_eq_nil in E.
      assert (length (sorted l) = length l) as El
        by (unfold sorted; apply sort_by_length).
      rewrite E in El. simpl in El. lia.
    - apply Forall_map. apply Forall_forall. intros p _.
      unfold speed_ok. simpl. lia. }
  destruct (run_spec_inv L n (Z.to_nat n_steps) road0 g2 ltac:(lia) ltac:(lia) Hinv0)
    as (Hinv & Ha & Hf).
  exists (fst (run_spec (Z.to_nat n_steps) road0 g2)),
         (snd (run_spec (Z.to_nat n_steps) road0 g2)).
  split; [|split; [exact Hinv | split; [exact Ha | exact Hf]]].
  unfold Simulation.run_simulation, bind. rewrite Hs.
  unfold Road.init, bind. rewrite Hc. unfold ret. fold road0.
  rewrite iter_step_run by (simpl; lia).
  now destruct (run_spec _ _ _).
Qed.

(** What one replicate of the scan contributes: the means, after the
    burn-in prefix, of the velocity and flow histories of the run seeded
    with the replicate's index, whatever state the generator was in. *)
Definition sample_of (n_steps L n burn_in run : Z) (s : npfloat * npfloat) : Prop :=
  forall g0 : rng, exists road g1,
    Simulation.run_simulation n_steps L n 5 (3 # 10) (Some run) g0 = Ok (road, g1) /\
    s = (np_mean (skipn (Z.to_nat burn_in) (Road.avg_velocity_history road)),
         np_mean (skipn (Z.to_nat burn_in) (Road.flow_history road))).

(** The aggregate of a density run with [n] vehicles: mean and standard
    deviation of the samples of the replicates [0 .. n_runs - 1]. *)
Definition entry_of (n_steps L n_runs burn_in n : Z)
    (e : Simulation.aggregate) : Prop :=
  exists samples,
    Forall2 (sample_of n_steps L n burn_in) (py_range n_runs) samples /\
    e = Simulation.mk_aggregate
          (np_mean (map fst samples)) (np_std (map fst samples))
          (np_mean (map snd samples)) (np_std (map snd samples)).

Definition nonneg_entry (e : Simulation.aggregate) : Prop :=
  fin_nonneg (Simulation.avg_velocity e) /\ fin_nonneg (Simulation.std_velocity e) /\
  fin_nonneg (Simulation.avg_flow e) /\ fin_nonneg (Simulation.std_flow e).

Lemma replicate_ok (n_steps L n burn_in run : Z) (g : rng) :
  0 <= run < 2 ^ 32 -> 1 <= n <= L -> 0 <= burn_in < n_steps ->
  exists s g',
    Simulation.replicate n_steps L n burn_in run g = Ok (s, g') /\
    sample_of n_steps L n burn_in run s /\
    fin_nonneg (fst s) /\ fin_nonneg (snd s).
Proof.
  intros Hrun Hn Hb.
  destruct (seeded_run_ok n_steps L n run g Hrun Hn)
    as (road & g' & Hok & (_ & _ & _ & _ & Havg & Hflow) & Ha & Hf).
  eexists _, g'. split; [|split; [|split]].
  - unfold Simulation.replicate, bind. rewrite Hok. unfold ret.
    rewrite !py_slice_from_nonneg by lia. reflexivity.
  - intros g0. exists road.
    unfold Simulation.run_simulation, bind in *.
    rewrite (seed_resets run g0 g). eexists. split; [exact Hok | reflexivity].
  - cbn [fst]. apply np_mean_nonneg.
    + apply skipn_nonempty. lia.
    + now apply Forall_skipn_keeps.
  - cbn [snd]. apply np_mean_nonneg.
    + apply skipn_nonempty. lia.
    + now apply Forall_skipn_keeps.
Qed.

Lemma aggregate_nonneg (samples : list (npfloat * npfloat)) :
  samples <> [] ->
  Forall (fun s => fin_nonneg (fst s) /\ fin_nonneg (snd s)) samples ->
  nonneg_entry (Simulation.mk_aggregate
                  (np_mean (map fst samples)) (np_std (map fst samples))
                  (np_mean (map snd samples)) (np_std (map snd samples))).
Proof.
  intros Hne Hall.
  assert (map fst samples <> [] /\ map snd samples <> []) as (Hne1 & Hne2)
    by (destruct samples; [congruence | split; discriminate]).
  assert (Forall fin_nonneg (map fst samples)) as H1
    by (apply Forall_map; eapply Forall_impl; [|exact Hall]; now intros s (Hs & _)).
  assert (Forall fin_nonneg (map snd samples)) as H2
    by (apply Forall_map; eapply Forall_impl; [|exact Hall]; now intros s (_ & Hs)).
  unfold nonneg_entry. simpl. repeat split.
  - now apply np_mean_nonneg.
  - apply np_std_nonneg; [assumption|].
    eapply Forall_impl; [|exact H1]. apply fin_nonneg_is_fin.
  - now apply np_mean_nonneg.
  - apply np_std_nonneg; [assumption|].
    eapply Forall_impl; [|exact H2]. apply fin_nonneg_is_fin.
Qed.

Lemma scan_loop_ok (n_steps L n_runs burn_in : Z) :
  1 <= n_runs <= 2 ^ 32 -> 0 <= burn_in < n_steps ->
  forall densities results g,
    (forall d, In d densities ->
       exists n, Simulation.int_of_product d L = Ok n /\ 1 <= n <= L) ->
    exists results' g',
      Simulation.scan_loop densities n_steps L n_runs burn_in results g
        = Ok (results', g') /\
      map fst results' = fold_left key_add densities (map fst results) /\
      (forall k, (exists d, In d densities /\ (d == k)%Q) ->
         exists d' n e, In d' densities /\ (d' == k)%Q /\
                        Simulation.int_of_product d' L = Ok n /\
                        Simulation.dict_get results' k = Some e /\
                        entry_of n_steps L n_runs burn_in n e /\ nonneg_entry e) /\
      (forall k, (forall d, In d densities -> ~ (d == k)%Q) ->
         Simulation.dict_get results' k = Simulation.dict_get results k).
Proof.
  intros Hruns Hb densities.
  induction densities as [|d0 rest IH]; intros results g Hcount.
  - exists results, g. split; [reflexivity|]. split; [reflexivity|].
    split; [intros k (d & [] & _) | reflexivity].
  - destruct (Hcount d0 (or_introl eq_refl)) as (n0 & Hn0 & Hrange).
    cbn [Simulation.scan_loop]. unfold bind, lift. rewrite Hn0.
    destruct (mapM_Forall2
                (Simulation.replicate n_steps L n0 burn_in)
                (fun run s => sample_of n_steps L n0 burn_in run s
                              /\ fin_nonneg (fst s) /\ fin_nonneg (snd s))
                (py_range n_runs)
                (fun run g0 Hin =>
                   replicate_ok n_steps L n0 burn_in run g0
                     ltac:(apply py_range_In in Hin; lia) Hrange Hb) g)
      as (samples & g1 & Hsamples & Hall).
    rewrite Hsamples.
    set (e0 := Simulation.mk_aggregate
                 (np_mean (map fst samples)) (np_std (map fst samples))
                 (np_mean (map snd samples)) (np_std (map snd samples))).
    assert (entry_of n_steps L n_runs burn_in n0 e0) as He0.
    { exists samples. split; [|reflexivity].
      eapply Forall2_impl; [|exact Hall]. now intros run s (Hs & _). }
    assert (nonneg_entry e0) as Hnn0.
    { apply aggregate_nonneg.
      - apply Forall2_length in Hall. rewrite py_range_length in Hall.
        destruct samples; [simpl in Hall; lia | discriminate].
      - clear -Hall. induction Hall as [|run s ? ? (_ & Hs) _ IH]; constructor; auto. }
    destruct (IH (Simulation.dict_set results d0 e0) g1
                 (fun d Hin => Hcount d (or_intror Hin)))
      as (results' & g' & Hloop & Hkeys & Hentries & Hkeep).
    exists results', g'. split; [exact Hloop|]. split; [|split].
    + rewrite Hkeys, dict_set_keys. reflexivity.
    + intros k (d & Hin & Hdk).
      destruct (existsb (fun d' => Qeq_bool d' k) rest) eqn:E.
      * apply existsb_exists in E. destruct E as (d1 & Hin1 & Hd1).
        apply Qeq_bool_iff in Hd1.
        destruct (Hentries k (ex_intro _ d1 (conj Hin1 Hd1)))
          as (d' & n & e & Hin' & Hd' & Hn & Hget & He & Hnn).
        exists d', n, e. split; [now right|]. split; [assumption|].
        split; [assumption|]. split; [assumption|]. split; assumption.
      * assert (forall d', In d' rest -> ~ (d' == k)%Q) as Hnone.
        { intros d' Hin' Hd'.
          assert (existsb (fun d' => Qeq_bool d' k) rest = true); [|congruence].
          apply existsb_exists. exists d'. split; [assumption|].
          now apply Qeq_bool_iff. }
        destruct Hin as [<-|Hin]; [|exfalso; exact (Hnone d Hin Hdk)].
        exists d0, n0, e0. split; [now left|]. split; [assumption|].
        split; [assumption|]. split; [|split; assumption].
        rewrite (Hkeep k Hnone), dict_get_set.
        apply Qeq_bool_iff in Hdk. now rewrite Hdk.
    + intros k Hnone.
      rewrite (Hkeep k (fun d Hin => Hnone d (or_intror Hin))), dict_get_set.
      destruct (Qeq_bool d0 k) eqn:E; [|reflexivity].
      apply Qeq_bool_iff in E. exfalso. exact (Hnone d0 (or_introl eq_refl) E).
Qed.

End Scan.

(** Two floats of the same value are the same float. *)
Lemma binary64_canonical (x y : Q) :
  (binary64 x == binary64 y)%Q -> binary64 x = binary64 y.
Proof.
  unfold binary64. cbv zeta. intros E.
  apply Qred_complete. now rewrite !Qred_correct in E.
Qed.

(** The product and its truncation in binary64, at values where the
    rounding of the product decides the count: 0.29 on a hundred cells is
    28 vehicles, 0.7 on ten is 7, 1.005 on two hundred is 200, and
    1.3333333333333333 on three is 4. *)
Lemma int_of_product_rounds :
  Simulation.int_of_product (binary64 (29 # 100)) 100 = Ok 28 /\
  Simulation.int_of_product (binary64 (7 # 10)) 10 = Ok 7 /\
  Simulation.int_of_product (binary64 (1005 # 1000)) 200 = Ok 200 /\
  Simulation.int_of_product
    (binary64 (13333333333333333 # 10000000000000000)) 3 = Ok 4 /\
  Simulation.int_of_product (1 # 2) (2 ^ 1024) = Raise OverflowError /\
  Simulation.int_of_product (2 ^ 1000) (2 ^ 1000) = Raise OverflowError.
Proof. vm_compute. repeat split; reflexivity. Qed.

Section ScanTheorem.
Context {rng : Type} `{NumPyContract rng}.

(** C9, as the code runs it.  The vehicle count of a density is
    [int(density * road_length)] in binary64: the rounded product,
    truncated toward zero.  When every count is between 1 and the road
    length, with between 1 and 2^32 replicates and a burn-in below the
    number of steps, the scan returns a dictionary whose keys are the
    requested densities, as floats, in order of first request, each once
    (so at most K entries, and exactly the K requested when they are
    pairwise distinct); the entry of a requested density is the aggregate
    of the runs with its vehicle count: mean and standard deviation, over
    the replicates seeded with their index, of the means of the velocity
    and flow histories after the burn-in prefix; and its four values are
    numbers that are not negative. *)
Theorem C9_density_scan (densities : list Q)
    (n_steps road_length n_runs burn_in : Z) (g : rng) :
  1 <= n_runs <= 2 ^ 32 ->
  0 <= burn_in < n_steps ->
  (forall d, In d densities ->
     exists n, Simulation.int_of_product (binary64 d) road_length = Ok n /\
               1 <= n <= road_length) ->
  exists results g',
    Simulation.experiment_density_scan densities n_steps road_length n_runs burn_in g
      = Ok (results, g') /\
    map fst results = fold_left key_add (map binary64 densities) [] /\
    (length results <= length densities)%nat /\
    (ForallOrdPairs (fun a b => ~ (a == b)%Q) (map binary64 densities) ->
     map fst results = map binary64 densities) /\
    (forall d, In d densities ->
       exists n e,
         Simulation.int_of_product (binary64 d) road_length = Ok n /\
         Simulation.dict_get results (binary64 d) = Some e /\
         entry_of n_steps road_length n_runs burn_in n e /\
         nonneg_entry e).
Proof.
  intros Hruns Hb Hcount.
  assert (forall f, In f (map binary64 densities) ->
            exists n, Simulation.int_of_product f road_length = Ok n /\
                      1 <= n <= road_length) as Hcount'.
  { intros f Hin. apply in_map_iff in Hin. destruct Hin as (d & <- & Hin).
    exact (Hcount d Hin). }
  destruct (scan_loop_ok n_steps road_length n_runs burn_in Hruns Hb
                         (map binary64 densities) [] g Hcount')
    as (results & g' & Hscan & Hkeys & Hentries & _).
  cbn [map] in Hkeys.
  exists results, g'. split; [exact Hscan|]. split; [exact Hkeys|].
  split; [|split].
  - rewrite <- (length_map fst), Hkeys.
    pose proof (keys_length (map binary64 densities) []) as Hlen.
    rewrite length_map in Hlen. exact Hlen.
  - intros Hdistinct. rewrite Hkeys.
    exact (keys_distinct (map binary64 densities) [] (Forall_nil _) Hdistinct).
  - intros d Hin.
    destruct (Hentries (binary64 d)
                (ex_intro _ (binary64 d)
                   (conj (in_map binary64 densities d Hin) (Qeq_refl _))))
      as (f & n & e & Hf & Hfd & Hn & Hget & He & Hnn).
    apply in_map_iff in Hf. destruct Hf as (d' & <- & _).
    apply binary64_canonical in Hfd. rewrite Hfd in Hn.
    exists n, e. split; [exact Hn|]. split; [exact Hget|].
    split; [exact He | exact Hnn].
Qed.

End ScanTheorem.

(** C9 for one density, 0.3 on ten cells: three vehicles, two replicates
    of four steps, the first of which is burn-in. *)
Lemma C9_density_scan_witness :
  exists results g',
    Simulation.experiment_density_scan [3 # 10] 4 10 2 1 7 = Ok (results, g') /\
    map fst results = [binary64 (3 # 10)] /\
    exists e,
      Simulation.dict_get results (binary64 (3 # 10)) = Some e /\
      entry_of 4 10 2 1 3 e /\ nonneg_entry e.
Proof.
  destruct (@C9_density_scan Z _ toy_contract [3 # 10] 4 10 2 1 7
              ltac:(lia) ltac:(lia)
              ltac:(intros d [<-|[]]; exists 3; split; [vm_compute; reflexivity | lia]))
    as (results & g' & Hscan & Hkeys & _ & _ & Hentries).
  exists results, g'. split; [exact Hscan|]. split; [exact Hkeys|].
  destruct (Hentries (3 # 10) (or_introl eq_refl)) as (n & e & Hn & Hget & He & Hnn).
  assert (n = 3) as -> by (vm_compute in Hn; congruence).
  exists e. split; [exact Hget|]. split; [exact He | exact Hnn].
Defined.

(** C9 as the specification words it fails.  The density 0.29 on ten
    cells, requested twice: the dictionary has one entry, not two, and its
    flow is 0.2 times its velocity, the density of two vehicles, the
    truncation of the product, where rounding it gives three; on a
    hundred cells the product is just below 29 and the count is 28, where
    rounding gives 29.  With a burn-in beyond the run the values are NaN,
    and with more vehicles than cells the scan raises. *)
Lemma C9_scan_counterexample :
  (exists results g' e a f,
     Simulation.experiment_density_scan [29 # 100; 29 # 100] 3 10 1 0 7
       = Ok (results, g') /\
     length results = 1%nat /\
     Simulation.dict_get results (binary64 (29 # 100)) = Some e /\
     Simulation.avg_velocity e = Fin a /\ Simulation.avg_flow e = Fin f /\
     ~ (a == 0)%Q /\ (f == (2 # 10) * a)%Q) /\
  Simulation.int_of_product (binary64 (29 # 100)) 10 = Ok 2 /\
  round_half_even (binary64 (binary64 (29 # 100) * inject_Z 10)) = 3 /\
  Simulation.int_of_product (binary64 (29 # 100)) 100 = Ok 28 /\
  round_half_even (binary64 (binary64 (29 # 100) * inject_Z 100)) = 29 /\
  (exists results g' e,
     Simulation.experiment_density_scan [3 # 10] 2 10 1 5 7 = Ok (results, g') /\
     Simulation.dict_get results (binary64 (3 # 10)) = Some e /\
     Simulation.avg_velocity e = NaN /\ Simulation.avg_flow e = NaN) /\
  Simulation.experiment_density_scan [15 # 10] 2 10 1 0 7 = Raise ValueError.
Proof.
  split; [|split; [|split; [|split; [|split; [|split]]]]].
  - eexists _, _, _, _, _.
    split; [vm_compute; reflexivity|]. split; [reflexivity|].
    split; [vm_compute; reflexivity|]. split; [reflexivity|]. split; [reflexivity|].
    split; [discriminate | reflexivity].
  - vm_compute. reflexivity.
  - vm_compute. reflexivity.
  - vm_compute. reflexivity.
  - vm_compute. reflexivity.
  - eexists _, _, _.
    split; [vm_compute; reflexivity|]. split; [vm_compute; reflexivity|].
    split; reflexivity.
  - vm_compute. reflexivity.
Qed.

(** * The rest of the engine, the drivers and the analysis

    [Car.reset_history] and [Road.get_state], the drivers
    [run_accident_experiment] and [run_monte_carlo] of [simulation.py], and
    of [analysis.py] the congestion metrics and the frames of the
    animation.
    Console output is not part of the model: of a [print] only the
    exceptions its arguments can raise are kept. *)

(** ** agents.py and environment.py, continued *)

(** [Car.reset_history]. *)
Definition reset_history (self : Car.t) : Car.t :=
  Car.mk (Car.position self) (Car.velocity self) (Car.v_max self)
         (Car.acceleration self) (Car.brake_prob self) [] [].

Module State.

(** The dictionary [Road.get_state] returns, a field per key. *)
Record t : Type := mk {
  time : Z;
  positions : list Z;
  velocities : list Z;
  avg_velocity : npfloat;
  density : npfloat;
  flow : npfloat
}.

End State.

(** [Road.get_state]. *)
Definition get_state (self : Road.t) : result State.t :=
  let avg_velocity :=
    np_mean (map float_of_int (map Car.velocity (Road.cars self))) in
  match py_truediv (Road.n_cars self) (Road.length self) with
  | Raise e => Raise e
  | Ok density =>
      Ok (State.mk (Road.time self)
            (map Car.position (Road.cars self))
            (map Car.velocity (Road.cars self))
            avg_velocity density
            (match Road.flow_history self with
             | [] => float_of_int 0
             | _ :: _ => last (Road.flow_history self) NaN
             end))
  end.

(** ** simulation.py, continued *)

(** What the drivers and the analysis can raise: the exceptions of the
    engine, and [IndexError] from indexing an empty list. *)
Inductive pyexn : Type :=
| Engine (e : exn)
| IndexError.

(** The dictionary [run_monte_carlo] returns; the two-dimensional arrays
    are lists of rows. *)
Record monte_carlo : Type := mk_monte_carlo {
  mc_avg_velocities : list (list npfloat);
  mc_flows : list (list npfloat);
  mc_final_velocities : list npfloat;
  mc_n_runs : Z
}.

Section MoreDrivers.
Context {rng : Type} `{NumPy rng}.

(** [run_accident_experiment]; [v_max] and [brake_prob] are the keyword
    arguments handed on to [Road]. *)
Definition run_accident_experiment
    (n_steps accident_start accident_duration road_length n_cars v_max : Z)
    (brake_prob : Q) : M rng Road.t :=
  _ <- np_random_seed 42 ;;
  road <- Road.init road_length n_cars v_max brake_prob ;;
  (* Run until accident *)
  road <- iterM (Z.to_nat accident_start) Road.step road ;;
  (* Introduce accident *)
  let accident_location := road_length / 2 in
  let road := Road.introduce_accident road accident_location accident_duration in
  (* Continue simulation *)
  iterM (Z.to_nat (n_steps - accident_start)) Road.step road.

(** The loop of [run_monte_carlo], from the three lists built so far. *)
Fixpoint monte_carlo_loop (runs : list Z)
    (n_steps road_length n_cars v_max : Z) (brake_prob : Q)
    (all_avg_velocities all_flows : list (list npfloat))
    (final_velocities : list npfloat) (g : rng)
    : pyexn + (list (list npfloat) * list (list npfloat) * list npfloat * rng) :=
  match runs with
  | [] => inr (all_avg_velocities, all_flows, final_velocities, g)
  | run :: rest =>
      match Simulation.run_simulation n_steps road_length n_cars v_max
                                      brake_prob (Some run) g with
      | Raise e => inl (Engine e)
      | Ok (road, g') =>
          match Road.avg_velocity_history road with
          | [] => inl IndexError
          | _ :: _ =>
              monte_carlo_loop rest n_steps road_length n_cars v_max brake_prob
                (all_avg_velocities ++ [Road.avg_velocity_history road])
                (all_flows ++ [Road.flow_history road])
                (final_velocities ++ [last (Road.avg_velocity_history road) NaN])
                g'
          end
      end
  end.

(** [run_monte_carlo]; the keyword arguments are those of
    [run_simulation]. *)
Definition run_monte_carlo (n_runs n_steps road_length n_cars v_max : Z)
    (brake_prob : Q) (g : rng) : pyexn + (monte_carlo * rng) :=
  match monte_carlo_loop (py_range n_runs) n_steps road_length n_cars v_max
                         brake_prob [] [] [] g with
  | inl e => inl e
  | inr (all_avg_velocities, all_flows, final_velocities, g') =>
      inr (mk_monte_carlo all_avg_velocities all_flows final_velocities n_runs, g')
  end.

End MoreDrivers.

(** ** analysis.py *)

Module Analysis.

(** A float that may also be infinite: numpy's division of a float by
    zero warns and returns an infinity or NaN, it does not raise. *)
Inductive xfloat : Type :=
| Num (x : npfloat)
| PosInf
| NegInf.

(** [x / n] for a numpy float [x] and an integer [n]. *)
Definition np_div_int (x : npfloat) (n : Z) : xfloat :=
  match x with
  | NaN => Num NaN
  | Fin q =>
      if n =? 0
      then match Qcompare q 0 with
           | Eq => Num NaN
           | Gt => PosInf
           | Lt => NegInf
           end
      else Num (Fin (q / inject_Z n))
  end.

(** [1 - x]. *)
Definition one_minus (x : xfloat) : xfloat :=
  match x with
  | Num (Fin q) => Num (Fin (1 - q))
  | Num NaN => Num NaN
  | PosInf => NegInf
  | NegInf => PosInf
  end.

(** [np.var]: the mean squared deviation from the mean. *)
Definition np_var (l : list npfloat) : npfloat :=
  match np_mean l with
  | NaN => NaN
  | Fin m =>
      np_mean (map (fun x => fmul (fadd x (Fin (- m))) (fadd x (Fin (- m)))) l)
  end.

(** The dictionary [analyze_congestion_metrics] returns. *)
Record metrics : Type := mk_metrics {
  avg_velocity : npfloat;
  congestion_index : xfloat;
  variance : npfloat
}.

(** [analyze_congestion_metrics].  The report printed divides [n_cars] by
    [length], which can raise. *)
Definition analyze_congestion_metrics (road : Road.t) (burn_in : Z)
    : pyexn + metrics :=
  let steady_state_velocities :=
    py_slice_from burn_in (Road.avg_velocity_history road) in
  let avg_v := np_mean steady_state_velocities in
  match Road.cars road with
  | [] => inl IndexError
  | car0 :: _ =>
      let v_max := Car.v_max car0 in
      let congestion_index := one_minus (np_div_int avg_v v_max) in
      let velocity_variance := np_var steady_state_velocities in
      match py_truediv (Road.n_cars road) (Road.length road) with
      | Raise e => inl (Engine e)
      | Ok _ => inr (mk_metrics avg_v congestion_index velocity_variance)
      end
  end.

(** The frames [create_traffic_animation] draws, for histories of
    [max_time] entries: [range(0, max_time, max(1, max_time // 200))]. *)
Definition animation_frames (max_time : Z) : list Z :=
  let sample_rate := Z.max 1 (max_time / 200) in
  map (fun i => Z.of_nat i * sample_rate)
      (seq 0 (Z.to_nat ((max_time + sample_rate - 1) / sample_rate))).

End Analysis.

(** * Further properties *)

(** ** A car, update after update *)

(** [np.random.rand] draws from the unit interval. *)
Class RandInUnitInterval (rng : Type) `{NumPy rng} : Prop :=
  rand_in_unit_interval :
    forall g, (0 <= fst (np_random_rand g))%Q /\ (fst (np_random_rand g) < 1)%Q.

Section Drive.
Context {rng : Type} `{NumPy rng}.

(** A car updated once per gap of a list, as tick after tick does. *)
Fixpoint drive (c : Car.t) (gaps : list Z) (L : Z) : M rng Car.t :=
  match gaps with
  | [] => ret c
  | d :: ds => c' <- Car.update c d L ;; drive c' ds L
  end.

Fixpoint drive_spec (c : Car.t) (gaps : list Z) (L : Z) (g : rng) : Car.t * rng :=
  match gaps with
  | [] => (c, g)
  | d :: ds =>
      drive_spec (update_spec c d L (fst (np_random_rand g))) ds L
                 (snd (np_random_rand g))
  end.

Lemma drive_run (c : Car.t) (gaps : list Z) (L : Z) (g : rng) :
  L <> 0 -> drive c gaps L g = Ok (drive_spec c gaps L g).
Proof.
  intros HL. revert c g. induction gaps as [|d ds IH]; intros c g; simpl.
  - reflexivity.
  - unfold bind. rewrite update_run by assumption. apply IH.
Qed.

Lemma drive_spec_histories (c : Car.t) (gaps : list Z) (L : Z) (g : rng) :
  length (Car.velocity_history (fst (drive_spec c gaps L g)))
    = (length (Car.velocity_history c) + length gaps)%nat /\
  length (Car.position_history (fst (drive_spec c gaps L g)))
    = (length (Car.position_history c) + length gaps)%nat /\
  (gaps <> [] ->
   last (Car.velocity_history (fst (drive_spec c gaps L g))) 0
     = Car.velocity (fst (drive_spec c gaps L g)) /\
   last (Car.position_history (fst (drive_spec c gaps L g))) 0
     = Car.position (fst (drive_spec c gaps L g))) /\
  Car.v_max (fst (drive_spec c gaps L g)) = Car.v_max c /\
  Car.acceleration (fst (drive_spec c gaps L g)) = Car.acceleration c /\
  Car.brake_prob (fst (drive_spec c gaps L g)) = Car.brake_prob c.
Proof.
  revert c g. induction gaps as [|d ds IH]; intros c g.
  - simpl. rewrite !Nat.add_0_r.
    split; [reflexivity|]. split; [reflexivity|]. split; [congruence | auto].
  - cbn [drive_spec].
    set (c1 := update_spec c d L (fst (np_random_rand g))).
    destruct (IH c1 (snd (np_random_rand g))) as (Hv & Hp & Hlast & Hm & Ha & Hb).
    rewrite Hv, Hp, Hm, Ha, Hb.
    unfold c1 at 1 2 4 5 6. unfold update_spec. cbn [Car.velocity_history
      Car.position_history Car.v_max Car.acceleration Car.brake_prob].
    rewrite !length_app. simpl length.
    split; [lia|]. split; [lia|]. split; [|auto].
    intros _. destruct ds as [|d' ds'].
    + cbn [drive_spec fst]. unfold c1, update_spec.
      cbn [Car.velocity_history Car.position_history Car.velocity Car.position].
      now rewrite !last_last.
    + apply Hlast. discriminate.
Qed.

(** X1. After [reset_history], a car updated once per gap of a list (on a
    road of non-zero length) has exactly one entry per update in each
    history, the last entries being its current velocity and position, and
    the parameters it had. *)
Theorem reset_then_updates_history (c : Car.t) (gaps : list Z) (L : Z) (g : rng) :
  L <> 0 ->
  exists c' g',
    drive (reset_history c) gaps L g = Ok (c', g') /\
    length (Car.velocity_history c') = length gaps /\
    length (Car.position_history c') = length gaps /\
    (gaps <> [] ->
     last (Car.velocity_history c') 0 = Car.velocity c' /\
     last (Car.position_history c') 0 = Car.position c') /\
    Car.v_max c' = Car.v_max c /\
    Car.acceleration c' = Car.acceleration c /\
    Car.brake_prob c' = Car.brake_prob c.
Proof.
  intros HL.
  exists (fst (drive_spec (reset_history c) gaps L g)),
         (snd (drive_spec (reset_history c) gaps L g)).
  rewrite drive_run by assumption.
  destruct (drive_spec_histories (reset_history c) gaps L g)
    as (Hv & Hp & Hlast & Hm & Ha & Hb).
  split; [now destruct (drive_spec _ _ _ _)|].
  simpl in Hv, Hp, Hm, Ha, Hb.
  split; [exact Hv|]. split; [exact Hp|]. split; [exact Hlast|]. auto.
Qed.

Lemma free_update (c : Car.t) (d L : Z) (u : Q) :
  (0 <= u)%Q -> (Car.brake_prob c <= 0)%Q ->
  0 <= Car.acceleration c -> Car.v_max c < d ->
  Car.velocity (update_spec c d L u)
  = Z.min (Car.velocity c + Car.acceleration c) (Car.v_max c).
Proof.
  intros Hu Hb Ha Hd. unfold update_spec. cbn [Car.velocity].
  unfold phase_brake.
  destruct (Qlt_bool u (Car.brake_prob c)) eqn:E.
  - apply Qlt_bool_iff in E. exfalso.
    apply (Qlt_not_le _ _ E). now apply Qle_trans with 0%Q.
  - unfold phase_avoid, phase_accelerate.
    destruct (Z.leb_spec d (Z.min (Car.velocity c + Car.acceleration c) (Car.v_max c)));
      [lia | reflexivity].
Qed.

(** X2. Free flow.  A car that never brakes at random (brake probability
    0 or below, draws from the unit interval) and always has a gap above
    [v_max] gains its acceleration at every update until it reaches
    [v_max], and stays there: after [k] updates its velocity is
    [min (v + k * acceleration) v_max], and its velocity history has grown
    by these values for 1 to [k]. *)
Theorem free_flow_velocity `{!RandInUnitInterval rng}
    (c : Car.t) (gaps : list Z) (L : Z) (g : rng) :
  L <> 0 ->
  (Car.brake_prob c <= 0)%Q ->
  0 <= Car.acceleration c ->
  Car.velocity c <= Car.v_max c ->
  Forall (fun d => Car.v_max c < d) gaps ->
  exists c' g',
    drive c gaps L g = Ok (c', g') /\
    Car.velocity c'
    = Z.min (Car.velocity c + Z.of_nat (length gaps) * Car.acceleration c)
            (Car.v_max c) /\
    Car.velocity_history c'
    = Car.velocity_history c
      ++ map (fun i => Z.min (Car.velocity c + Z.of_nat i * Car.acceleration c)
                             (Car.v_max c))
             (seq 1 (length gaps)).
Proof.
  intros HL Hb Ha Hv Hgaps.
  exists (fst (drive_spec c gaps L g)), (snd (drive_spec c gaps L g)).
  rewrite drive_run by assumption.
  split; [now destruct (drive_spec _ _ _ _)|].
  revert c g Hb Ha Hv Hgaps. induction gaps as [|d ds IH]; intros c g Hb Ha Hv Hgaps.
  - simpl. rewrite app_nil_r. split; [lia | reflexivity].
  - inversion Hgaps as [|? ? Hd Hds]; subst.
    cbn [drive_spec].
    set (u := fst (np_random_rand g)).
    assert (0 <= u)%Q as Hu by apply rand_in_unit_interval.
    pose proof (free_update c d L u Hu Hb Ha Hd) as Hv1.
    set (c1 := update_spec c d L u) in *.
    assert (Car.v_max c1 = Car.v_max c /\ Car.acceleration c1 = Car.acceleration c
            /\ Car.brake_prob c1 = Car.brake_prob c
            /\ Car.velocity_history c1
               = Car.velocity_history c ++ [Car.velocity c1])
      as (Em & Ea & Eb & Eh) by (repeat split).
    destruct (IH c1 (snd (np_random_rand g))) as (IHv & IHh).
    + now rewrite Eb.
    + now rewrite Ea.
    + rewrite Em, Hv1. lia.
    + now rewrite Em.
    + rewrite IHv, IHh, Em, Ea, Eh, Hv1. split.
      * cbn [length]. rewrite Nat2Z.inj_succ, Z.mul_succ_l. lia.
      * rewrite <- app_assoc. f_equal. cbn [length seq map app]. f_equal.
        -- f_equal. lia.
        -- rewrite <- (seq_shift (length ds) 1), map_map. apply map_ext.
           intros i. rewrite Nat2Z.inj_succ, Z.mul_succ_l. lia.
Qed.

(** X3. A car with no room.  A car within its bounds whose gap is at most
    1, or whose [v_max] is 0, ends the update with velocity 0 where it
    was, whatever is drawn. *)
Theorem car_without_room_stays (c : Car.t) (d L : Z) (g : rng) :
  car_ok L c ->
  d <= 1 \/ Car.v_max c = 0 ->
  exists c' g',
    Car.update c d L g = Ok (c', g') /\
    Car.velocity c' = 0 /\ Car.position c' = Car.position c.
Proof.
  intros Hok Hroom.
  pose proof Hok as (Hv & Hp & Ha).
  exists (update_spec c d L (fst (np_random_rand g))), (snd (np_random_rand g)).
  rewrite update_run by lia. split; [reflexivity|].
  destruct (update_spec_advance L c d (fst (np_random_rand g)) Hok) as (Hadv & Hpos).
  assert (Car.velocity (update_spec c d L (fst (np_random_rand g))) = 0) as E.
  { destruct Hroom as [Hd|Hm]; [lia|].
    destruct (update_spec_bounds c d L (fst (np_random_rand g)) Hok) as (Hb & _).
    change (Car.v_max (update_spec c d L (fst (np_random_rand g))))
      with (Car.v_max c) in Hb. lia. }
  split; [exact E|]. rewrite Hpos, E, Z.add_0_r. apply Z.mod_small. lia.
Qed.

End Drive.

(** ** The road, tick after tick *)

Lemma override_Forall (P : Car.t -> Prop) (r : Road.t) :
  (forall c, P c -> P (Car.set_velocity c 0)) ->
  Forall P (Road.cars r) ->
  Forall P (Road.cars (Road._apply_accident_effects r)).
Proof.
  intros Hstop Hall. unfold Road._apply_accident_effects.
  destruct (Road.incident r) as [a|]; [|assumption].
  destruct (_ <? _); [|assumption]. simpl.
  apply Forall_map. eapply Forall_impl; [|exact Hall].
  intros c Hc. unfold Road.stop_if_near. destruct (_ <? 20); auto.
Qed.

Lemma updated_Forall (P Q : Car.t -> Prop) (L : Z) (s : list Car.t)
    (gaps : list Z) (cs : list Car.t) :
  (forall c d u, P c -> Q (update_spec c d L u)) ->
  Forall P s ->
  Forall2 (fun cd c' => exists u, c' = update_spec (fst cd) (snd cd) L u)
          (combine s gaps) cs ->
  Forall Q cs.
Proof.
  intros Hupd. revert gaps cs. induction s as [|c s IH]; intros gaps cs Hall H2.
  - inversion H2; subst. constructor.
  - destruct gaps as [|d gaps]; simpl in *.
    + inversion H2; subst. constructor.
    + inversion H2 as [|? c' ? cs' (u & ->) Hrest]; subst.
      inversion Hall; subst.
      constructor; [now apply Hupd | now apply (IH gaps)].
Qed.

Lemma updated_pairs (L : Z) (s : list Car.t) (gaps : list Z) (cs : list Car.t) :
  length gaps = length s ->
  Forall2 (fun cd c' => exists u, c' = update_spec (fst cd) (snd cd) L u)
          (combine s gaps) cs ->
  Forall2 (fun c c' => exists d u, c' = update_spec c d L u) s cs.
Proof.
  revert gaps cs. induction s as [|c s IH]; intros gaps cs Hlen H2.
  - inversion H2; subst. constructor.
  - destruct gaps as [|d gaps]; [discriminate|]. simpl in *.
    inversion H2 as [|? c' ? cs' (u & ->) Hrest]; subst.
    constructor; [now exists d, u | apply (IH gaps); [lia | assumption]].
Qed.

Section Ticks.
Context {rng : Type} `{NumPy rng}.

Lemma step_spec_Forall (P Q : Car.t -> Prop) (r : Road.t) (g : rng) :
  (forall c, P c -> P (Car.set_velocity c 0)) ->
  (forall c d u, P c -> Q (update_spec c d (Road.length r) u)) ->
  Forall P (Road.cars r) ->
  Forall Q (Road.cars (fst (step_spec r g))).
Proof.
  intros Hstop Hupd Hall. unfold step_spec. cbn [fst Road.cars].
  eapply updated_Forall; [exact Hupd | | apply update_all_spec_Forall2].
  pose proof (override_Forall P r Hstop Hall) as H1.
  rewrite Forall_forall in *. intros c Hc. apply H1.
  eapply Permutation_in; [symmetry; apply sort_by_perm | exact Hc].
Qed.

Lemma step_spec_frame (r : Road.t) (g : rng) :
  Road.time (fst (step_spec r g)) = Road.time r + 1 /\
  Road.length (fst (step_spec r g)) = Road.length r /\
  Road.n_cars (fst (step_spec r g)) = Road.n_cars r /\
  exists a,
    Road.avg_velocity_history (fst (step_spec r g))
      = Road.avg_velocity_history r ++ [a] /\
    Road.density_history (fst (step_spec r g))
      = Road.density_history r
        ++ [Fin (inject_Z (Road.n_cars r) / inject_Z (Road.length r))] /\
    Road.flow_history (fst (step_spec r g))
      = Road.flow_history r
        ++ [fmul (Fin (inject_Z (Road.n_cars r) / inject_Z (Road.length r))) a].
Proof.
  destruct (override_frame r) as (_ & En & Et & Ea & Ed & Ef & _).
  unfold step_spec. cbn [fst Road.time Road.length Road.n_cars
    Road.avg_velocity_history Road.density_history Road.flow_history].
  rewrite En, Et, Ea, Ed, Ef.
  split; [reflexivity|]. split; [reflexivity|]. split; [reflexivity|].
  eexists. split; [reflexivity|]. split; reflexivity.
Qed.

Lemma run_spec_frame (k : nat) (r : Road.t) (g : rng) :
  Road.time (fst (run_spec k r g)) = Road.time r + Z.of_nat k /\
  Road.n_cars (fst (run_spec k r g)) = Road.n_cars r /\
  length (Road.cars (fst (run_spec k r g))) = length (Road.cars r) /\
  exists new_avg,
    length new_avg = k /\
    Road.avg_velocity_history (fst (run_spec k r g))
      = Road.avg_velocity_history r ++ new_avg /\
    Road.density_history (fst (run_spec k r g))
      = Road.density_history r
        ++ repeat (Fin (inject_Z (Road.n_cars r) / inject_Z (Road.length r))) k /\
    Road.flow_history (fst (run_spec k r g))
      = Road.flow_history r
        ++ map (fmul (Fin (inject_Z (Road.n_cars r) / inject_Z (Road.length r))))
               new_avg.
Proof.
  revert r g. induction k as [|k IH]; intros r g.
  - cbn [run_spec fst]. split; [lia|]. split; [reflexivity|]. split; [reflexivity|].
    exists []. simpl. now rewrite !app_nil_r.
  - cbn [run_spec].
    destruct (step_spec_frame r g) as (Et & El & En & a & Ea & Ed & Ef).
    destruct (IH (fst (step_spec r g)) (snd (step_spec r g)))
      as (Ht & Hn & Hc & new & Hlen & Ha & Hd & Hf).
    rewrite Ht, Hn, Hc, Et, En, step_spec_cars_length.
    split; [lia|]. split; [reflexivity|]. split; [reflexivity|].
    exists (a :: new). split; [simpl; lia|].
    rewrite Ha, Hd, Hf, Ea, Ed, Ef, En, El, <- !app_assoc. auto.
Qed.

(** X4. [k] ticks of a road of non-zero length return; time has advanced
    by [k]; the length, [n_cars] and the number of cars are unchanged; and
    the three system histories have only grown, by [k] entries each: every
    new density is [n_cars / length] and every new flow is that density
    times the new average velocity of the same tick. *)
Theorem ticks_bookkeeping (r : Road.t) (g : rng) (k : nat) :
  Road.length r <> 0 ->
  exists r' g',
    iterM k Road.step r g = Ok (r', g') /\
    Road.time r' = Road.time r + Z.of_nat k /\
    Road.length r' = Road.length r /\
    Road.n_cars r' = Road.n_cars r /\
    length (Road.cars r') = length (Road.cars r) /\
    exists new_avg,
      length new_avg = k /\
      Road.avg_velocity_history r' = Road.avg_velocity_history r ++ new_avg /\
      Road.density_history r'
        = Road.density_history r
          ++ repeat (Fin (inject_Z (Road.n_cars r) / inject_Z (Road.length r))) k /\
      Road.flow_history r'
        = Road.flow_history r
          ++ map (fmul (Fin (inject_Z (Road.n_cars r) / inject_Z (Road.length r))))
                 new_avg.
Proof.
  intros HL.
  exists (fst (run_spec k r g)), (snd (run_spec k r g)).
  rewrite iter_step_run by assumption.
  destruct (run_spec_frame k r g) as (Ht & Hn & Hc & Hhist).
  split; [now destruct (run_spec k r g)|].
  split; [exact Ht|]. split; [apply run_spec_length|].
  split; [exact Hn|]. split; [exact Hc | exact Hhist].
Qed.

(** The two histories of a car have [m] entries each. *)
Definition histories_of_length (m : nat) (c : Car.t) : Prop :=
  length (Car.velocity_history c) = m /\ length (Car.position_history c) = m.

(** The last entries of a car's histories are its velocity and position. *)
Definition histories_current (c : Car.t) : Prop :=
  last (Car.velocity_history c) 0 = Car.velocity c /\
  last (Car.position_history c) 0 = Car.position c.

Lemma step_spec_car_histories (m : nat) (r : Road.t) (g : rng) :
  Forall (histories_of_length m) (Road.cars r) ->
  Forall (fun c => histories_of_length (S m) c /\ histories_current c)
         (Road.cars (fst (step_spec r g))).
Proof.
  apply step_spec_Forall.
  - intros c Hc. exact Hc.
  - intros c d u (Hv & Hp). unfold histories_of_length, histories_current, update_spec.
    cbn [Car.velocity_history Car.position_history Car.velocity Car.position].
    rewrite !length_app, !last_last, Hv, Hp. simpl. repeat split; lia.
Qed.

Lemma run_spec_car_histories (m k : nat) (r : Road.t) (g : rng) :
  Forall (histories_of_length m) (Road.cars r) ->
  Forall (fun c => histories_of_length (m + k) c /\
                   (k <> O -> histories_current c))
         (Road.cars (fst (run_spec k r g))).
Proof.
  revert m r g. induction k as [|k IH]; intros m r g Hall.
  - cbn [run_spec fst]. rewrite Nat.add_0_r.
    eapply Forall_impl; [|exact Hall]. intros c Hc. split; [exact Hc | congruence].
  - cbn [run_spec].
    pose proof (step_spec_car_histories m r g Hall) as H1.
    destruct k as [|k].
    + cbn [run_spec fst]. rewrite Nat.add_1_r.
      eapply Forall_impl; [|exact H1]. intros c (Hc & Hcur). auto.
    + specialize (IH (S m) (fst (step_spec r g)) (snd (step_spec r g))).
      replace (m + S (S k))%nat with (S m + S k)%nat by lia.
      eapply Forall_impl; [|apply IH].
      * intros c (Hc & Hcur). split; [exact Hc|]. intros _. apply Hcur. discriminate.
      * eapply Forall_impl; [|exact H1]. now intros c (Hc & _).
Qed.

(** X5. When every car of a road (of non-zero length) has [m] entries in
    each of its two histories, after [k] ticks every car has [m + k] in
    each, and, once a tick has run, their last entries are the car's
    current velocity and position. *)
Theorem ticks_car_histories (r : Road.t) (g : rng) (m k : nat) :
  Road.length r <> 0 ->
  Forall (histories_of_length m) (Road.cars r) ->
  exists r' g',
    iterM k Road.step r g = Ok (r', g') /\
    Forall (fun c => histories_of_length (m + k) c /\
                     (k <> O -> histories_current c))
           (Road.cars r').
Proof.
  intros HL Hall.
  exists (fst (run_spec k r g)), (snd (run_spec k r g)).
  rewrite iter_step_run by assumption.
  split; [now destruct (run_spec k r g) | now apply run_spec_car_histories].
Qed.

(** X6. The snapshot after a tick.  On a road of non-zero length a tick
    followed by [get_state] returns a snapshot at the next time, with one
    position and one velocity per car, whose flow is its density times
    its average velocity. *)
Theorem snapshot_after_tick (r : Road.t) (g : rng) :
  Road.length r <> 0 ->
  exists r' g' st,
    Road.step r g = Ok (r', g') /\
    get_state r' = Ok st /\
    State.time st = Road.time r + 1 /\
    length (State.positions st) = length (Road.cars r) /\
    length (State.velocities st) = length (Road.cars r) /\
    State.positions st = map Car.position (Road.cars r') /\
    State.velocities st = map Car.velocity (Road.cars r') /\
    State.flow st = fmul (State.density st) (State.avg_velocity st).
Proof.
  intros HL.
  pose proof (step_spec_cars_length r g) as Hlen.
  destruct (step_spec_frame r g) as (Et & El & En & _).
  exists (fst (step_spec r g)), (snd (step_spec r g)).
  rewrite step_run by assumption.
  unfold get_state. rewrite py_truediv_nonzero by congruence.
  eexists. split; [now destruct (step_spec r g)|]. split; [reflexivity|].
  cbn [State.time State.positions State.velocities State.flow State.density
       State.avg_velocity].
  rewrite !length_map, Hlen, Et.
  repeat split.
  unfold step_spec. cbn [fst Road.flow_history Road.cars Road.n_cars Road.length].
  destruct (Road.flow_history (Road._apply_accident_effects r) ++ _) eqn:E.
  - now apply app_eq_nil in E.
  - rewrite <- E, last_last. reflexivity.
Qed.

End Ticks.

(** ** Incidents and full roads *)

Lemma Forall2_with_left {A B : Type} (P : A -> Prop) (R R' : A -> B -> Prop)
    (l : list A) (l' : list B) :
  (forall x y, P x -> R x y -> R' x y) ->
  Forall P l -> Forall2 R l l' -> Forall2 R' l l'.
Proof.
  intros Himp Hall H2. induction H2 as [|x y l l' Hxy _ IH]; constructor.
  - apply Himp; [now inversion Hall | assumption].
  - apply IH. now inversion Hall.
Qed.

Lemma stopped_car_creeps (c : Car.t) (d L : Z) (u : Q) :
  0 <= Car.acceleration c -> 0 <= Car.v_max c -> Car.velocity c = 0 ->
  0 <= Car.velocity (update_spec c d L u)
    <= Z.min (Car.acceleration c) (Car.v_max c).
Proof.
  intros Ha Hm Hv. unfold update_spec. cbn [Car.velocity].
  assert (phase_accelerate c = Z.min (Car.acceleration c) (Car.v_max c)) as E1
    by (unfold phase_accelerate; rewrite Hv; reflexivity).
  assert (0 <= phase_avoid d (phase_accelerate c) <= phase_accelerate c) as H2
    by (unfold phase_avoid; destruct (Z.leb_spec d (phase_accelerate c)); lia).
  unfold phase_brake. destruct (Qlt_bool _ _); lia.
Qed.

Lemma sorted_consecutive (lo : Z) (ps : list Z) :
  StronglySorted Z.lt ps ->
  Forall (fun p => lo <= p < lo + Z.of_nat (length ps)) ps ->
  ps = map (fun i => lo + Z.of_nat i) (seq 0 (length ps)).
Proof.
  revert lo. induction ps as [|x ps IH]; intros lo Hs Hr; [reflexivity|].
  inversion Hs as [|? ? Hs' Hlt]; subst. inversion Hr as [|? ? Hx Hr']; subst.
  cbn [length] in *.
  assert (forall (l : list Z) (a b : Z),
             StronglySorted Z.lt l -> Forall (fun p => a <= p < b) l ->
             Z.of_nat (length l) <= Z.max (b - a) 0) as Hcount.
  { clear. induction l as [|y l IHl]; intros a b Hs Hr; [simpl; lia|].
    inversion Hs as [|? ? Hs' Hlt]; subst. inversion Hr as [|? ? Hy Hr']; subst.
    assert (Forall (fun p => y + 1 <= p < b) l) as Hr''.
    { rewrite Forall_forall in *. intros p Hp.
      specialize (Hlt p Hp). specialize (Hr' p Hp). lia. }
    specialize (IHl (y + 1) b Hs' Hr''). cbn [length]. lia. }
  assert (Forall (fun p => x + 1 <= p < lo + Z.of_nat (S (length ps))) ps) as Hr''.
  { rewrite Forall_forall in *. intros p Hp.
    specialize (Hlt p Hp). specialize (Hr' p Hp). lia. }
  pose proof (Hcount ps _ _ Hs' Hr'') as Hc.
  assert (x = lo) as -> by lia.
  cbn [seq map]. f_equal; [lia|].
  rewrite <- seq_shift, map_map.
  rewrite (IH (lo + 1) Hs').
  - rewrite length_map, length_seq. apply map_ext. intros i. lia.
  - eapply Forall_impl; [|exact Hr'']. intros p Hp. cbv beta in *. lia.
Qed.

Lemma full_ring_gaps (L : Z) (n : nat) :
  0 < L -> Z.of_nat n = L ->
  Forall (fun d => d <= 1) (gaps_by_index L (map Z.of_nat (seq 0 n))).
Proof.
  intros HL Hn. apply Forall_forall. intros d Hd.
  apply (In_nth _ _ 0) in Hd. destruct Hd as (i & Hi & <-).
  rewrite gaps_by_index_length, length_map, length_seq in Hi.
  rewrite gaps_by_index_nth by now rewrite length_map, length_seq.
  rewrite length_map, length_seq.
  change 0 with (Z.of_nat 0) at 1 2. rewrite !map_nth.
  assert (((i + 1) mod n < n)%nat) as Hm by (apply Nat.mod_upper_bound; lia).
  rewrite !seq_nth by assumption. cbn [Nat.add].
  assert (1 mod L <= 1) as H1.
  { destruct (Z.eq_dec L 1) as [E1|E1].
    - pose proof (Z.mod_pos_bound 1 L HL). lia.
    - rewrite Z.mod_small; lia. }
  destruct (Nat.eq_dec (i + 1) n) as [E|E].
  - rewrite E, Nat.Div0.mod_same.
    replace (Z.of_nat 0 - Z.of_nat i) with (1 + (-1) * L) by lia.
    now rewrite Z.mod_add by lia.
  - rewrite Nat.mod_small by lia.
    replace (Z.of_nat (i + 1) - Z.of_nat i) with 1 by lia. exact H1.
Qed.

Lemma frozen_cars (L : Z) (s : list Car.t) (gaps : list Z) (cs : list Car.t) :
  length gaps = length s ->
  Forall (car_ok L) s ->
  Forall (fun d => d <= 1) gaps ->
  Forall2 (fun cd c' => exists u, c' = update_spec (fst cd) (snd cd) L u)
          (combine s gaps) cs ->
  Forall (fun c => Car.velocity c = 0) cs /\
  map Car.position cs = map Car.position s.
Proof.
  revert gaps cs. induction s as [|c s IH]; intros gaps cs Hlen Hok Hgaps H2.
  - inversion H2; subst. split; [constructor | reflexivity].
  - destruct gaps as [|d gaps]; [discriminate|]. simpl in *.
    inversion H2 as [|? c' ? cs' (u & ->) Hrest]; subst.
    inversion Hok as [|? ? Hc Hok']; subst.
    inversion Hgaps as [|? ? Hd Hgaps']; subst.
    destruct (IH gaps cs' ltac:(lia) Hok' Hgaps' Hrest) as (Hv & Hp).
    destruct (update_spec_advance L c d u Hc) as (Hadv & Hpos).
    cbn [fst snd] in *.
    assert (Car.velocity (update_spec c d L u) = 0) as E by lia.
    split; [now constructor|]. cbn [map]. f_equal; [|exact Hp].
    destruct Hc as (_ & Hr & _).
    rewrite Hpos, E, Z.add_0_r. apply Z.mod_small. lia.
Qed.

Lemma gaps_by_index_range (L : Z) (ps : list Z) :
  0 < L -> Forall (fun d => 0 <= d < L) (gaps_by_index L ps).
Proof.
  intros HL. unfold gaps_by_index. apply Forall_map. apply Forall_forall.
  intros i _. apply Z.mod_pos_bound. exact HL.
Qed.

Lemma Forall_combine {A B : Type} (P : A -> Prop) (Q : B -> Prop)
    (l : list A) (l' : list B) :
  Forall P l -> Forall Q l' ->
  Forall (fun xy => P (fst xy) /\ Q (snd xy)) (combine l l').
Proof.
  intros Hl Hl'. rewrite Forall_forall in *. intros [x y] Hin. cbn [fst snd].
  split; [apply Hl; eapply in_combine_l | apply Hl'; eapply in_combine_r]; exact Hin.
Qed.

Lemma update_all_spec_draws {rng : Type} `{RandInUnitInterval rng}
    (cds : list (Car.t * Z)) (L : Z) (g : rng) :
  Forall2 (fun cd c' => exists u, (0 <= u)%Q /\
                                  c' = update_spec (fst cd) (snd cd) L u)
          cds (fst (update_all_spec cds L g)).
Proof.
  revert g. induction cds as [|[c d] cds IH]; intros g; simpl.
  - constructor.
  - constructor; [|apply IH].
    exists (fst (np_random_rand g)). split; [apply rand_in_unit_interval | reflexivity].
Qed.

(** A stopped car that does not brake at random leaves the update at the
    velocity its gap allows, and when it has two cells of gap and can
    accelerate it has moved. *)
Lemma stopped_car_leaves (c : Car.t) (d L : Z) (u : Q) :
  (0 <= u)%Q -> (Car.brake_prob c <= 0)%Q -> Car.velocity c = 0 ->
  Car.velocity (update_spec c d L u)
  = phase_avoid d (Z.min (Car.acceleration c) (Car.v_max c)) /\
  (1 <= Car.acceleration c -> 1 <= Car.v_max c -> 2 <= d < L ->
   1 <= Car.velocity (update_spec c d L u) /\
   Car.position (update_spec c d L u) <> Car.position c).
Proof.
  intros Hu Hb Hv.
  assert (Car.velocity (update_spec c d L u)
          = phase_avoid d (Z.min (Car.acceleration c) (Car.v_max c))) as E.
  { unfold update_spec. cbn [Car.velocity]. unfold phase_brake.
    destruct (Qlt_bool u (Car.brake_prob c)) eqn:Eb.
    - apply Qlt_bool_iff in Eb. exfalso.
      apply (Qlt_not_le _ _ Eb). now apply Qle_trans with 0%Q.
    - unfold phase_accelerate. now rewrite Hv. }
  split; [exact E|]. intros Ha Hm Hd.
  assert (1 <= Car.velocity (update_spec c d L u) < L) as Hw.
  { rewrite E. unfold phase_avoid.
    destruct (Z.leb_spec d (Z.min (Car.acceleration c) (Car.v_max c))); lia. }
  split; [lia|].
  change (Car.position (update_spec c d L u))
    with ((Car.position c + Car.velocity (update_spec c d L u)) mod L).
  set (w := Car.velocity (update_spec c d L u)) in *.
  intros Epos.
  pose proof (Z.div_mod (Car.position c + w) L ltac:(lia)) as Hdm.
  rewrite Epos in Hdm.
  set (q := (Car.position c + w) / L) in *.
  assert (w = L * q) as Hq by lia.
  clearbody w q. clear -Hw Hq. destruct (Z.le_gt_cases q 0); nia.
Qed.

Section Jams.
Context {rng : Type} `{NumPy rng}.

(** X8. Cars in an incident are not held still.  During a tick of an
    active incident, on a road of positive length whose cars have
    acceleration and [v_max] that are not negative, a car within 20 cells
    of the incident enters the update at velocity 0 and leaves it at a
    velocity between 0 and [min acceleration v_max].  When it does not
    brake at random (brake probability 0) that velocity is the one its
    gap to the next car allows, and with acceleration and [v_max] of at
    least 1 and a gap of at least two cells it is at least 1: the car
    has left its cell. *)
Theorem incident_cars_creep `{!RandInUnitInterval rng}
    (r : Road.t) (g : rng) (a : Road.accident) :
  0 < Road.length r ->
  Road.incident r = Some a ->
  Road.accident_timer a < Road.accident_duration a ->
  Forall (fun c => 0 <= Car.acceleration c /\ 0 <= Car.v_max c) (Road.cars r) ->
  let s := sort_by Car.position (Road.cars (Road._apply_accident_effects r)) in
  let gaps := gaps_by_index (Road.length r) (map Car.position s) in
  exists r' g',
    Road.step r g = Ok (r', g') /\
    Forall2 (fun cd c' =>
               circular_distance (Road.length r) (Road.accident_location a) (fst cd)
                 < 20 ->
               Car.velocity (fst cd) = 0 /\
               0 <= Car.velocity c'
                 <= Z.min (Car.acceleration (fst cd)) (Car.v_max (fst cd)) /\
               Car.position c'
               = (Car.position (fst cd) + Car.velocity c') mod Road.length r /\
               ((Car.brake_prob (fst cd) <= 0)%Q ->
                Car.velocity c'
                = phase_avoid (snd cd)
                    (Z.min (Car.acceleration (fst cd)) (Car.v_max (fst cd))) /\
                (1 <= Car.acceleration (fst cd) -> 1 <= Car.v_max (fst cd) ->
                 2 <= snd cd ->
                 1 <= Car.velocity c' /\
                 Car.position c' <> Car.position (fst cd))))
            (combine s gaps) (Road.cars r').
Proof.
  intros HL Hinc Hactive Hall s gaps.
  exists (fst (step_spec r g)), (snd (step_spec r g)).
  rewrite step_run by lia. split; [now destruct (step_spec r g)|].
  set (P := fun c => 0 <= Car.acceleration c /\ 0 <= Car.v_max c /\
                     (circular_distance (Road.length r) (Road.accident_location a) c < 20
                      -> Car.velocity c = 0)).
  assert (Forall P (Road.cars (Road._apply_accident_effects r))) as H1.
  { unfold Road._apply_accident_effects. rewrite Hinc.
    destruct (Z.ltb_spec (Road.accident_timer a) (Road.accident_duration a)); [|lia].
    simpl. apply Forall_map. eapply Forall_impl; [|exact Hall].
    intros c (Ha & Hm). unfold P.
    destruct (stop_if_near_spec (Road.length r) (Road.accident_location a) c)
      as (Hnear & Hfar).
    destruct (Z.lt_ge_cases
                (circular_distance (Road.length r) (Road.accident_location a) c) 20)
      as [Hlt|Hge].
    - rewrite (Hnear Hlt). simpl. auto.
    - rewrite (Hfar Hge). split; [assumption|]. split; [assumption|]. lia. }
  assert (Forall P s) as Hs.
  { rewrite Forall_forall in *. intros c Hc. apply H1.
    eapply Permutation_in; [symmetry; apply sort_by_perm | exact Hc]. }
  pose proof (Forall_combine _ _ _ _ Hs
                (gaps_by_index_range (Road.length r) (map Car.position s) HL))
    as Hpairs.
  fold gaps in Hpairs.
  unfold step_spec. cbn [fst Road.cars]. fold s. fold gaps.
  eapply Forall2_with_left; [|exact Hpairs|apply update_all_spec_draws].
  intros [c d] c' ((Ha & Hm & Hzero) & Hd) (u & Hu & ->) Hnear.
  cbn [fst snd] in *.
  specialize (Hzero Hnear).
  split; [exact Hzero|]. split; [now apply stopped_car_creeps|].
  split; [reflexivity|]. intros Hb.
  destruct (stopped_car_leaves c d (Road.length r) u Hu Hb Hzero) as (E & Hmoves).
  split; [exact E|]. intros Ha1 Hm1 Hd2. apply Hmoves; lia.
Qed.

(** X9. A full road is frozen.  When a road of positive length has a car
    within its bounds on every cell, a tick leaves every car at velocity 0
    and the cars, in order, on cells [0, 1, ..., length - 1]. *)
Theorem full_road_is_frozen (r : Road.t) (g : rng) :
  0 < Road.length r ->
  Forall (car_ok (Road.length r)) (Road.cars r) ->
  NoDup (map Car.position (Road.cars r)) ->
  Z.of_nat (length (Road.cars r)) = Road.length r ->
  exists r' g',
    Road.step r g = Ok (r', g') /\
    Forall (fun c => Car.velocity c = 0) (Road.cars r') /\
    map Car.position (Road.cars r')
    = map Z.of_nat (seq 0 (length (Road.cars r))).
Proof.
  intros HL Hok Hnd Hfull.
  exists (fst (step_spec r g)), (snd (step_spec r g)).
  rewrite step_run by lia. split; [now destruct (step_spec r g)|].
  destruct (override_frame r) as (_ & _ & _ & _ & _ & _ & Epos).
  pose proof (override_bounds r Hok) as Hok1.
  set (s := sort_by Car.position (Road.cars (Road._apply_accident_effects r))).
  pose proof (sort_by_perm Car.position (Road.cars (Road._apply_accident_effects r)))
    as Hperm. fold s in Hperm.
  assert (Forall (car_ok (Road.length r)) s) as Hoks.
  { rewrite Forall_forall in *. intros c Hc. apply Hok1.
    eapply Permutation_in; [symmetry; exact Hperm | exact Hc]. }
  assert (length s = length (Road.cars r)) as Hlen.
  { unfold s. rewrite sort_by_length.
    now rewrite <- (length_map Car.position), Epos, length_map. }
  assert (map Car.position s = map Z.of_nat (seq 0 (length (Road.cars r)))) as Eps.
  { rewrite (sorted_consecutive 0 (map Car.position s)).
    - rewrite length_map, Hlen. apply map_ext. intros i. lia.
    - apply strictly_sorted; [apply sorted_positions, sort_by_sorted|].
      eapply Permutation_NoDup; [apply Permutation_map; exact Hperm|].
      now rewrite Epos.
    - rewrite length_map, Hlen, Hfull. apply Forall_map.
      eapply Forall_impl; [|exact Hoks]. intros c (_ & Hp & _). lia. }
  unfold step_spec. cbn [fst Road.cars]. fold s.
  destruct (frozen_cars (Road.length r) s
              (gaps_by_index (Road.length r) (map Car.position s))
              (fst (update_all_spec
                      (combine s (gaps_by_index (Road.length r) (map Car.position s)))
                      (Road.length r) g)))
    as (Hv & Hp).
  - now rewrite gaps_by_index_length, length_map.
  - exact Hoks.
  - rewrite Eps. now apply full_ring_gaps.
  - apply update_all_spec_Forall2.
  - split; [exact Hv | now rewrite Hp].
Qed.

End Jams.

(** ** The drivers *)

Section DriverRuns.
Context {rng : Type} `{NumPyContract rng}.

Lemma run_spec_Forall (P : Car.t -> Prop) (k : nat) (r : Road.t) (g : rng) :
  (forall c, P c -> P (Car.set_velocity c 0)) ->
  (forall c d u, P c -> P (update_spec c d (Road.length r) u)) ->
  Forall P (Road.cars r) ->
  Forall P (Road.cars (fst (run_spec k r g))).
Proof.
  intros Hstop Hupd. revert r g Hupd. induction k as [|k IH]; intros r g Hupd Hall.
  - exact Hall.
  - cbn [run_spec]. apply IH.
    + now rewrite step_spec_length.
    + now apply step_spec_Forall with (P := P).
Qed.

(** A car as [Road.__init__] parameterises it. *)
Definition built_with (v_max : Z) (brake_prob : Q) (c : Car.t) : Prop :=
  Car.v_max c = v_max /\ Car.acceleration c = 1 /\ Car.brake_prob c = brake_prob.

(** The road [Road.__init__] builds from a sample. *)
Definition fresh_road (L n v_max : Z) (brake_prob : Q) (sample : list Z) : Road.t :=
  Road.mk L n 0 (map (fun pos => Car.init pos v_max 1 brake_prob) (sorted sample))
          [] [] [] None.

Lemma init_run (L n v_max : Z) (brake_prob : Q) (g : rng) :
  0 <= n <= Z.max L 0 ->
  exists sample g',
    Road.init L n v_max brake_prob g = Ok (fresh_road L n v_max brake_prob sample, g') /\
    length (Road.cars (fresh_road L n v_max brake_prob sample)) = Z.to_nat n /\
    Forall (fun c => built_with v_max brake_prob c /\ histories_of_length 0 c /\
                     Car.velocity c = 0)
           (Road.cars (fresh_road L n v_max brake_prob sample)).
Proof.
  intros Hn. destruct (choice_returns L n g Hn) as (l & g' & Hc & Hl).
  exists l, g'. unfold Road.init, bind. rewrite Hc. split; [reflexivity|].
  unfold fresh_road. cbn [Road.cars]. split.
  - rewrite length_map. unfold sorted. now rewrite sort_by_length.
  - apply Forall_map. apply Forall_forall. intros p _.
    unfold built_with, histories_of_length. simpl. auto.
Qed.

Lemma seed_step (seed : option Z) (g : rng) :
  (forall s, seed = Some s -> 0 <= s < 2 ^ 32) ->
  exists g1,
    match seed return M rng unit with
    | Some s => np_random_seed s
    | None => ret tt
    end g = Ok (tt, g1).
Proof.
  intros Hs. destruct seed as [s|].
  - apply seed_accepts. now apply Hs.
  - now exists g.
Qed.

Lemma built_with_kept (v_max : Z) (brake_prob : Q) (k : nat) (r : Road.t) (g : rng) :
  Forall (built_with v_max brake_prob) (Road.cars r) ->
  Forall (built_with v_max brake_prob) (Road.cars (fst (run_spec k r g))).
Proof.
  apply run_spec_Forall.
  - intros c Hc. exact Hc.
  - intros c d u Hc. exact Hc.
Qed.

Lemma seeded_run_shape
    (n_steps road_length n_cars v_max : Z) (brake_prob : Q) (seed : option Z)
    (g : rng) :
  0 < road_length ->
  0 <= n_cars <= road_length ->
  (forall s, seed = Some s -> 0 <= s < 2 ^ 32) ->
  exists road g',
    Simulation.run_simulation n_steps road_length n_cars v_max brake_prob seed g
      = Ok (road, g') /\
    Road.time road = Z.max n_steps 0 /\
    Road.length road = road_length /\
    Road.n_cars road = n_cars /\
    length (Road.cars road) = Z.to_nat n_cars /\
    length (Road.avg_velocity_history road) = Z.to_nat n_steps /\
    length (Road.density_history road) = Z.to_nat n_steps /\
    length (Road.flow_history road) = Z.to_nat n_steps /\
    Forall (fun c => built_with v_max brake_prob c /\
                     histories_of_length (Z.to_nat n_steps) c)
           (Road.cars road).
Proof.
  intros HL Hn Hseed.
  destruct (seed_step seed g Hseed) as (g1 & Hs).
  destruct (init_run road_length n_cars v_max brake_prob g1 ltac:(lia))
    as (sample & g2 & Hinit & Hcount & Hcars).
  set (r0 := fresh_road road_length n_cars v_max brake_prob sample) in *.
  exists (fst (run_spec (Z.to_nat n_steps) r0 g2)),
         (snd (run_spec (Z.to_nat n_steps) r0 g2)).
  destruct (run_spec_frame (Z.to_nat n_steps) r0 g2)
    as (Ht & Hnc & Hc & new & Hlen & Ha & Hd & Hf).
  split.
  { unfold Simulation.run_simulation, bind. rewrite Hs, Hinit.
    rewrite iter_step_run by (simpl; lia). now destruct (run_spec _ _ _). }
  split; [rewrite Ht; simpl; lia|].
  split; [now rewrite run_spec_length|]. split; [exact Hnc|].
  split; [now rewrite Hc|].
  split; [rewrite Ha; simpl; exact Hlen|].
  split; [rewrite Hd; simpl; now rewrite repeat_length|].
  split; [rewrite Hf; simpl; now rewrite length_map|].
  assert (Forall (built_with v_max brake_prob)
            (Road.cars (fst (run_spec (Z.to_nat n_steps) r0 g2)))) as Hb.
  { apply built_with_kept. eapply Forall_impl; [|exact Hcars]. now intros c' (Hc' & _). }
  assert (Forall (fun c => histories_of_length (0 + Z.to_nat n_steps) c /\
                           (Z.to_nat n_steps <> O -> histories_current c))
            (Road.cars (fst (run_spec (Z.to_nat n_steps) r0 g2)))) as Hh.
  { apply run_spec_car_histories. eapply Forall_impl; [|exact Hcars].
    now intros c' (_ & Hc' & _). }
  rewrite Forall_forall in *. intros c Hin.
  split; [now apply Hb | now apply Hh].
Qed.

(** X10. A single run of a valid configuration (positive road length, a
    vehicle count between 0 and the length, a seed below 2^32 or none)
    returns a road at time [max n_steps 0], with the length and count
    asked, as many cars as asked, each with the parameters given and
    acceleration 1, and one entry per tick in each system history and in
    each history of each car. *)
Theorem run_simulation_shape
    (n_steps road_length n_cars v_max : Z) (brake_prob : Q) (seed : option Z)
    (g : rng) :
  0 < road_length ->
  0 <= n_cars <= road_length ->
  (forall s, seed = Some s -> 0 <= s < 2 ^ 32) ->
  exists road g',
    Simulation.run_simulation n_steps road_length n_cars v_max brake_prob seed g
      = Ok (road, g') /\
    Road.time road = Z.max n_steps 0 /\
    Road.length road = road_length /\
    Road.n_cars road = n_cars /\
    length (Road.cars road) = Z.to_nat n_cars /\
    length (Road.avg_velocity_history road) = Z.to_nat n_steps /\
    length (Road.density_history road) = Z.to_nat n_steps /\
    length (Road.flow_history road) = Z.to_nat n_steps /\
    Forall (fun c => built_with v_max brake_prob c /\
                     histories_of_length (Z.to_nat n_steps) c)
           (Road.cars road).
Proof.
  intros HL Hn Hseed.
  destruct (seeded_run_shape n_steps road_length n_cars v_max brake_prob seed g
              HL Hn Hseed) as (road & g' & Hrun & Hshape).
  exists road, g'. split; [exact Hrun | exact Hshape].
Qed.

(** X11. The accident scenario.  For a valid configuration and a duration
    that is not negative, [run_accident_experiment] returns the same road
    whatever state the generator was in; the road is at time
    [max accident_start 0 + max (n_steps - accident_start) 0], which is
    [n_steps] when the accident starts within the run and [accident_start]
    when it is scheduled after its end; its incident is at cell
    [road_length // 2], with the duration given and a timer at the number
    of ticks run since, capped by the duration. *)
Theorem accident_experiment_result
    (n_steps accident_start accident_duration road_length n_cars v_max : Z)
    (brake_prob : Q) (g : rng) :
  0 < road_length ->
  0 <= n_cars <= road_length ->
  0 <= accident_duration ->
  exists road g',
    (forall g0,
       run_accident_experiment n_steps accident_start accident_duration
                               road_length n_cars v_max brake_prob g0
       = Ok (road, g')) /\
    Road.time road = Z.max accident_start 0 + Z.max (n_steps - accident_start) 0 /\
    (0 <= accident_start <= n_steps -> Road.time road = n_steps) /\
    (0 <= n_steps < accident_start -> Road.time road = accident_start) /\
    Road.incident road
    = Some (Road.mk_accident (road_length / 2) accident_duration
              (Z.min (Z.max (n_steps - accident_start) 0) accident_duration)) /\
    length (Road.avg_velocity_history road) = Z.to_nat (Road.time road) /\
    length (Road.cars road) = Z.to_nat n_cars.
Proof.
  intros HL Hn Hdur.
  destruct (seed_accepts 42 g ltac:(lia)) as (g1 & Hs).
  destruct (init_run road_length n_cars v_max brake_prob g1 ltac:(lia))
    as (sample & g2 & Hinit & Hcount & _).
  set (r0 := fresh_road road_length n_cars v_max brake_prob sample) in *.
  set (k1 := Z.to_nat accident_start).
  set (k2 := Z.to_nat (n_steps - accident_start)).
  set (r1 := fst (run_spec k1 r0 g2)).
  set (g3 := snd (run_spec k1 r0 g2)).
  set (r2 := Road.introduce_accident r1 (road_length / 2) accident_duration).
  assert (Road.length r1 = road_length) as HL1 by (unfold r1; now rewrite run_spec_length).
  exists (fst (run_spec k2 r2 g3)), (snd (run_spec k2 r2 g3)).
  destruct (run_spec_frame k1 r0 g2) as (Ht1 & _ & Hc1 & new1 & Hlen1 & Ha1 & _).
  destruct (run_spec_frame k2 r2 g3) as (Ht2 & _ & Hc2 & new2 & Hlen2 & Ha2 & _).
  fold r1 in Ht1, Hc1, Ha1.
  assert (Road.time (fst (run_spec k2 r2 g3))
          = Z.max accident_start 0 + Z.max (n_steps - accident_start) 0) as Htime.
  { rewrite Ht2. unfold r2. simpl. rewrite Ht1. simpl. unfold k1, k2. lia. }
  split.
  { intros g0. unfold run_accident_experiment, bind.
    rewrite (seed_resets 42 g0 g), Hs, Hinit.
    rewrite iter_step_run by (simpl; lia).
    fold r0 k1. rewrite (surjective_pairing (run_spec k1 r0 g2)).
    cbv beta iota. fold r1 g3 r2 k2.
    rewrite iter_step_run by (unfold r2; simpl; lia).
    now destruct (run_spec k2 r2 g3). }
  split; [exact Htime|].
  split; [intros Hin; rewrite Htime; lia|].
  split; [intros Hout; rewrite Htime; lia|].
  split.
  { rewrite (run_spec_incident k2 r2 g3 (road_length / 2) accident_duration 0);
      [|reflexivity | lia].
    do 2 f_equal. unfold k2. lia. }
  split.
  - rewrite Htime, Ha2. unfold r2. simpl. rewrite Ha1, !length_app, Hlen1, Hlen2.
    simpl. unfold k1, k2. lia.
  - rewrite Hc2. unfold r2. simpl. now rewrite Hc1.
Qed.

End DriverRuns.

Lemma py_range_positive (n : Z) :
  1 <= n -> exists rest, py_range n = 0 :: rest.
Proof.
  intros Hn. unfold py_range.
  destruct (Z.to_nat n) as [|m] eqn:E; [lia|]. simpl. now eexists.
Qed.

Lemma py_range_nonpositive (n : Z) : n <= 0 -> py_range n = [].
Proof.
  intros Hn. unfold py_range. now replace (Z.to_nat n) with O by lia.
Qed.

Section MonteCarlo.
Context {rng : Type} `{NumPyContract rng}.

(** The two rows a run contributes: the velocity and flow histories of the
    run seeded with its index, whatever state the generator was in. *)
Definition seeded_rows (n_steps L n v_max : Z) (brake_prob : Q) (run : Z)
    (rows : list npfloat * list npfloat) : Prop :=
  forall g0 : rng, exists road g1,
    Simulation.run_simulation n_steps L n v_max brake_prob (Some run) g0
      = Ok (road, g1) /\
    fst rows = Road.avg_velocity_history road /\
    snd rows = Road.flow_history road.

Lemma monte_carlo_loop_ok (n_steps L n v_max : Z) (brake_prob : Q) :
  0 < L -> 0 <= n <= L -> 1 <= n_steps ->
  forall runs,
    (forall run, In run runs -> 0 <= run < 2 ^ 32) ->
    forall A F V g,
    exists rows g',
      monte_carlo_loop runs n_steps L n v_max brake_prob A F V g
        = inr (A ++ map fst rows, F ++ map snd rows,
               V ++ map (fun r => last (fst r) NaN) rows, g') /\
      Forall2 (seeded_rows n_steps L n v_max brake_prob) runs rows /\
      Forall (fun r => length (fst r) = Z.to_nat n_steps /\
                       length (snd r) = Z.to_nat n_steps) rows.
Proof.
  intros HL Hn Hsteps runs. induction runs as [|run rest IH]; intros Hruns A F V g.
  - exists [], g. simpl. rewrite !app_nil_r. repeat split; constructor.
  - destruct (seeded_run_shape n_steps L n v_max brake_prob (Some run) g HL Hn)
      as (road & g1 & Hrun & _ & _ & _ & _ & Ha & _ & Hf & _).
    { intros s [= <-]. apply Hruns. now left. }
    destruct (IH (fun r Hin => Hruns r (or_intror Hin))
                 (A ++ [Road.avg_velocity_history road])
                 (F ++ [Road.flow_history road])
                 (V ++ [last (Road.avg_velocity_history road) NaN]) g1)
      as (rows & g' & Hloop & Hrows & Hlens).
    exists ((Road.avg_velocity_history road, Road.flow_history road) :: rows), g'.
    split; [|split].
    + cbn [monte_carlo_loop]. rewrite Hrun.
      destruct (Road.avg_velocity_history road) as [|a l] eqn:E;
        [simpl in Ha; lia|].
      rewrite Hloop. cbn [map fst snd]. now rewrite <- !app_assoc.
    + constructor; [|exact Hrows].
      intros g0. exists road, g1. split; [|auto].
      unfold Simulation.run_simulation, bind in *.
      now rewrite (seed_resets run g0 g).
    + constructor; [split; assumption | exact Hlens].
Qed.

(** X12. The ensemble.  For a valid configuration with at least one step
    and at most 2^32 runs, [run_monte_carlo] returns [n_runs] as given and
    three collections aligned by run: row [i] of the velocities and of the
    flows is the history of the run seeded with [i], whatever state the
    generator was in, and has one entry per step; the final velocity of a
    run is the last entry of its velocity row. *)
Theorem monte_carlo_aligned
    (n_runs n_steps road_length n_cars v_max : Z) (brake_prob : Q) (g : rng) :
  0 < road_length -> 0 <= n_cars <= road_length -> 1 <= n_steps ->
  n_runs <= 2 ^ 32 ->
  exists rows g',
    run_monte_carlo n_runs n_steps road_length n_cars v_max brake_prob g
    = inr (mk_monte_carlo (map fst rows) (map snd rows)
                          (map (fun r => last (fst r) NaN) rows) n_runs, g') /\
    length rows = Z.to_nat n_runs /\
    Forall2 (seeded_rows n_steps road_length n_cars v_max brake_prob)
            (py_range n_runs) rows /\
    Forall (fun r => length (fst r) = Z.to_nat n_steps /\
                     length (snd r) = Z.to_nat n_steps) rows.
Proof.
  intros HL Hn Hsteps Hruns.
  destruct (monte_carlo_loop_ok n_steps road_length n_cars v_max brake_prob
              HL Hn Hsteps (py_range n_runs)
              (fun run Hin => ltac:(apply py_range_In in Hin; lia)) [] [] [] g)
    as (rows & g' & Hloop & Hrows & Hlens).
  exists rows, g'. unfold run_monte_carlo. rewrite Hloop.
  split; [reflexivity|]. split; [|split; assumption].
  apply Forall2_length in Hrows. now rewrite <- Hrows, py_range_length.
Qed.

(** X13. The ensemble at the edges.  With at least one run, a valid
    configuration with no step raises [IndexError] (the final velocity of
    the first run does not exist), and more vehicles than cells raise
    [ValueError]; with no run, the result holds three empty collections
    and [n_runs] as given. *)
Theorem monte_carlo_edges
    (n_runs n_steps road_length n_cars v_max : Z) (brake_prob : Q) (g : rng) :
  (1 <= n_runs -> n_steps <= 0 -> 0 < road_length ->
   0 <= n_cars <= road_length ->
   run_monte_carlo n_runs n_steps road_length n_cars v_max brake_prob g
   = inl IndexError) /\
  (1 <= n_runs -> Z.max road_length 0 < n_cars ->
   run_monte_carlo n_runs n_steps road_length n_cars v_max brake_prob g
   = inl (Engine ValueError)) /\
  (n_runs <= 0 ->
   run_monte_carlo n_runs n_steps road_length n_cars v_max brake_prob g
   = inr (mk_monte_carlo [] [] [] n_runs, g)).
Proof.
  split; [|split].
  - intros Hruns Hsteps HL Hn.
    destruct (py_range_positive n_runs Hruns) as (rest & E).
    destruct (seeded_run_shape n_steps road_length n_cars v_max brake_prob
                               (Some 0) g HL Hn)
      as (road & g1 & Hrun & _ & _ & _ & _ & Ha & _).
    { intros s [= <-]. lia. }
    unfold run_monte_carlo. rewrite E. cbn [monte_carlo_loop]. rewrite Hrun.
    destruct (Road.avg_velocity_history road); [reflexivity|].
    simpl in Ha. lia.
  - intros Hruns Hmany.
    destruct (py_range_positive n_runs Hruns) as (rest & E).
    destruct (seed_accepts 0 g ltac:(lia)) as (g1 & Hs).
    unfold run_monte_carlo. rewrite E. cbn [monte_carlo_loop].
    unfold Simulation.run_simulation, bind. rewrite Hs.
    unfold Road.init, bind. now rewrite choice_too_many.
  - intros Hruns. unfold run_monte_carlo.
    now rewrite py_range_nonpositive.
Qed.

End MonteCarlo.

(** ** Bounds on the histories *)

From Stdlib Require Import Lqa.

(** A float that is a number between two bounds. *)
Definition within (lo hi : Q) (x : npfloat) : Prop :=
  exists q, x = Fin q /\ (lo <= q <= hi)%Q.

Lemma inject_Z_succ (n : nat) :
  (inject_Z (Z.of_nat (S n)) == inject_Z (Z.of_nat n) + 1)%Q.
Proof. rewrite Nat2Z.inj_succ. unfold Z.succ. now rewrite inject_Z_plus. Qed.

Lemma fsum_within (lo hi : Q) (l : list npfloat) :
  Forall (within lo hi) l ->
  exists s, fold_right fadd (Fin 0) l = Fin s /\
    (inject_Z (Z.of_nat (length l)) * lo <= s
     <= inject_Z (Z.of_nat (length l)) * hi)%Q.
Proof.
  induction 1 as [|x l (a & -> & Ha) _ (s & IH & Hs)].
  - exists 0%Q. split; [reflexivity|]. cbn [length].
    change (inject_Z (Z.of_nat 0)) with 0%Q. lra.
  - cbn [fold_right length]. rewrite IH. eexists; split; [reflexivity|].
    rewrite inject_Z_succ. lra.
Qed.

Lemma np_mean_within (lo hi : Q) (l : list npfloat) :
  l <> [] -> Forall (within lo hi) l -> within lo hi (np_mean l).
Proof.
  intros Hne Hall. destruct (fsum_within lo hi l Hall) as (s & Hs & Hb).
  destruct l as [|x l]; [congruence|].
  unfold np_mean. rewrite Hs. eexists; split; [reflexivity|].
  cbn [length] in *.
  set (n := inject_Z (Z.of_nat (S (length l)))) in *.
  assert (0 < n)%Q as Hn.
  { unfold n. rewrite inject_Z_succ.
    assert (0 <= inject_Z (Z.of_nat (length l)))%Q by (unfold Qle; simpl; lia). lra. }
  split.
  - apply Qle_shift_div_l; [assumption|]. lra.
  - apply Qle_shift_div_r; [assumption|]. lra.
Qed.

(** A car within its velocity bounds whose [v_max] is [V]. *)
Definition capped (V : Z) (c : Car.t) : Prop := speed_ok c /\ Car.v_max c = V.

Lemma capped_velocities (V : Z) (cs : list Car.t) :
  Forall (capped V) cs ->
  Forall (within 0 (inject_Z V)) (map float_of_int (map Car.velocity cs)).
Proof.
  intros Hall. rewrite map_map. apply Forall_map.
  eapply Forall_impl; [|exact Hall].
  intros c (((Hv & Hm) & _) & E). eexists; split; [reflexivity|].
  rewrite <- E. split; [change 0%Q with (inject_Z 0)|]; rewrite <- Zle_Qle; lia.
Qed.

(** The cars are capped by [V], and so are the entries of the velocity
    history; the flows are capped by the density times [V]. *)
Definition capped_road (V : Z) (r : Road.t) : Prop :=
  Road.cars r <> [] /\ Forall (capped V) (Road.cars r) /\
  Forall (within 0 (inject_Z V)) (Road.avg_velocity_history r) /\
  Forall (within 0 (inject_Z (Road.n_cars r) / inject_Z (Road.length r)
                    * inject_Z V))
         (Road.flow_history r).

Section Capped.
Context {rng : Type} `{NumPy rng}.

Lemma step_spec_mean (r : Road.t) (g : rng) :
  Road.avg_velocity_history (fst (step_spec r g))
  = Road.avg_velocity_history r
    ++ [np_mean (map float_of_int
                     (map Car.velocity (Road.cars (fst (step_spec r g)))))] /\
  Road.flow_history (fst (step_spec r g))
  = Road.flow_history r
    ++ [fmul (Fin (inject_Z (Road.n_cars r) / inject_Z (Road.length r)))
             (np_mean (map float_of_int
                           (map Car.velocity (Road.cars (fst (step_spec r g))))))].
Proof.
  destruct (override_frame r) as (_ & En & _ & Ea & _ & Ef & _).
  unfold step_spec. cbn [fst Road.avg_velocity_history Road.flow_history Road.cars].
  now rewrite En, Ea, Ef.
Qed.

Lemma step_spec_capped (V : Z) (r : Road.t) (g : rng) :
  0 < Road.length r -> 0 <= Road.n_cars r ->
  capped_road V r -> capped_road V (fst (step_spec r g)).
Proof.
  intros HL Hn (Hne & Hcars & Havg & Hflow).
  assert (Forall (capped V) (Road.cars (fst (step_spec r g)))) as Hcars'.
  { apply step_spec_Forall with (P := capped V); [| |assumption].
    - intros c ((Hv & Ha) & E). unfold capped, speed_ok. simpl. repeat split; lia.
    - intros c d u (Hs & E). split; [now apply update_spec_speed | exact E]. }
  assert (Road.cars (fst (step_spec r g)) <> []) as Hne'.
  { intros E. pose proof (step_spec_cars_length r g) as Hl. rewrite E in Hl.
    destruct (Road.cars r); [congruence | discriminate]. }
  assert (within 0 (inject_Z V)
            (np_mean (map float_of_int
                          (map Car.velocity (Road.cars (fst (step_spec r g)))))))
    as Hmean.
  { apply np_mean_within; [|now apply capped_velocities].
    destruct (Road.cars (fst (step_spec r g))); [congruence | discriminate]. }
  destruct (step_spec_mean r g) as (Ea & Ef).
  destruct (step_spec_frame r g) as (_ & El & En & _).
  unfold capped_road. rewrite Ea, Ef, El, En.
  split; [assumption|]. split; [assumption|]. split.
  - apply Forall_app. split; [assumption | constructor; [assumption | constructor]].
  - apply Forall_app. split; [assumption|]. constructor; [|constructor].
    destruct Hmean as (a & -> & Ha). eexists; split; [reflexivity|].
    assert (0 <= inject_Z (Road.n_cars r) / inject_Z (Road.length r))%Q as Hd.
    { apply Qle_shift_div_l.
      - change 0%Q with (inject_Z 0). rewrite <- Zlt_Qlt. lia.
      - rewrite Qmult_0_l. change 0%Q with (inject_Z 0). rewrite <- Zle_Qle. lia. }
    split; [apply Qmult_le_0_compat; lra|].
    rewrite (Qmult_comm _ a), (Qmult_comm _ (inject_Z V)).
    apply Qmult_le_compat_r; [lra | exact Hd].
Qed.

End Capped.

Section CappedRuns.
Context {rng : Type} `{NumPyContract rng}.

Lemma run_spec_capped (V : Z) (k : nat) (r : Road.t) (g : rng) :
  0 < Road.length r -> 0 <= Road.n_cars r ->
  capped_road V r -> capped_road V (fst (run_spec k r g)).
Proof.
  revert r g. induction k as [|k IH]; intros r g HL Hn Hcap; [exact Hcap|].
  cbn [run_spec]. destruct (step_spec_frame r g) as (_ & El & En & _).
  apply IH; [now rewrite El | now rewrite En | now apply step_spec_capped].
Qed.

(** X14. In a single run of a valid configuration with at least one
    vehicle and a [v_max] that is not negative, every recorded average
    velocity is a number between 0 and [v_max], every recorded flow a
    number between 0 and the density times [v_max], and every car ends
    with a velocity between 0 and [v_max]. *)
Theorem run_histories_bounded
    (n_steps road_length n_cars v_max : Z) (brake_prob : Q) (seed : option Z)
    (g : rng) :
  0 < road_length ->
  1 <= n_cars <= road_length ->
  0 <= v_max ->
  (forall s, seed = Some s -> 0 <= s < 2 ^ 32) ->
  exists road g',
    Simulation.run_simulation n_steps road_length n_cars v_max brake_prob seed g
      = Ok (road, g') /\
    Forall (within 0 (inject_Z v_max)) (Road.avg_velocity_history road) /\
    Forall (within 0 (inject_Z n_cars / inject_Z road_length * inject_Z v_max))
           (Road.flow_history road) /\
    Forall (fun c => 0 <= Car.velocity c <= v_max) (Road.cars road).
Proof.
  intros HL Hn Hmax Hseed.
  destruct (seed_step seed g Hseed) as (g1 & Hs).
  destruct (init_run road_length n_cars v_max brake_prob g1 ltac:(lia))
    as (sample & g2 & Hinit & Hcount & Hcars).
  set (r0 := fresh_road road_length n_cars v_max brake_prob sample) in *.
  assert (capped_road v_max r0) as Hcap0.
  { split; [|split; [|split; constructor]].
    - intros E. rewrite E in Hcount. simpl in Hcount. lia.
    - eapply Forall_impl; [|exact Hcars].
      intros c ((Em & Ea & _) & _ & Ev). unfold capped, speed_ok. lia. }
  destruct (run_spec_capped v_max (Z.to_nat n_steps) r0 g2 HL ltac:(simpl; lia) Hcap0)
    as (_ & Hc & Ha & Hf).
  destruct (run_spec_frame (Z.to_nat n_steps) r0 g2) as (_ & En & _).
  exists (fst (run_spec (Z.to_nat n_steps) r0 g2)),
         (snd (run_spec (Z.to_nat n_steps) r0 g2)).
  split.
  { unfold Simulation.run_simulation, bind. rewrite Hs, Hinit.
    rewrite iter_step_run by (simpl; lia). now destruct (run_spec _ _ _). }
  split; [exact Ha|]. split.
  - rewrite En, run_spec_length in Hf. exact Hf.
  - eapply Forall_impl; [|exact Hc]. intros c (((Hv & Hm) & _) & E). lia.
Qed.

End CappedRuns.

(** ** The analysis *)

Lemma Qsquare_nonneg (y : Q) : (0 <= y * y)%Q.
Proof.
  destruct y as [n d]. unfold Qle, Qmult. simpl.
  rewrite Z.mul_1_r. apply Z.square_nonneg.
Qed.

Lemma squares_nonneg (m : Q) (l : list npfloat) :
  Forall is_fin l ->
  Forall fin_nonneg
    (map (fun x => fmul (fadd x (Fin (- m))) (fadd x (Fin (- m)))) l).
Proof.
  intros Hall. apply Forall_map. eapply Forall_impl; [|exact Hall].
  intros x (q & ->). cbn [fadd fmul]. eexists; split; [reflexivity|].
  apply Qsquare_nonneg.
Qed.

Lemma np_var_nonneg (l : list npfloat) :
  l <> [] -> Forall is_fin l -> fin_nonneg (Analysis.np_var l).
Proof.
  intros Hne Hall. unfold Analysis.np_var.
  destruct (np_mean_fin l Hne Hall) as (m & ->).
  apply np_mean_nonneg; [|now apply squares_nonneg].
  destruct l; [congruence | discriminate].
Qed.

(** X15. The congestion metrics of a road of non-zero length whose first
    car has a positive [v_max], when the velocities after the burn-in are
    numbers between 0 and that [v_max] and there is at least one: the
    average velocity is between 0 and [v_max], the congestion index is
    [1 - average / v_max] and lies between 0 and 1, and the variance is
    not negative. *)
Theorem congestion_metrics_bounds (road : Road.t) (burn_in : Z)
    (car0 : Car.t) (others : list Car.t) :
  Road.cars road = car0 :: others ->
  0 < Car.v_max car0 ->
  Road.length road <> 0 ->
  py_slice_from burn_in (Road.avg_velocity_history road) <> [] ->
  Forall (within 0 (inject_Z (Car.v_max car0)))
         (py_slice_from burn_in (Road.avg_velocity_history road)) ->
  exists a ci var,
    Analysis.analyze_congestion_metrics road burn_in
    = inr (Analysis.mk_metrics (Fin a) (Analysis.Num (Fin ci)) (Fin var)) /\
    (0 <= a <= inject_Z (Car.v_max car0))%Q /\
    (ci == 1 - a / inject_Z (Car.v_max car0))%Q /\
    (0 <= ci <= 1)%Q /\
    (0 <= var)%Q.
Proof.
  intros Hcars Hmax HL Hne Hall.
  destruct (np_mean_within _ _ _ Hne Hall) as (a & Ea & Ha).
  destruct (np_var_nonneg _ Hne) as (var & Evar & Hvar).
  { eapply Forall_impl; [|exact Hall]. intros x (q & -> & _). now exists q. }
  exists a, (1 - a / inject_Z (Car.v_max car0))%Q, var.
  unfold Analysis.analyze_congestion_metrics. rewrite Hcars.
  rewrite py_truediv_nonzero by assumption. rewrite Ea, Evar.
  unfold Analysis.np_div_int.
  destruct (Z.eqb_spec (Car.v_max car0) 0) as [E|_]; [lia|].
  split; [reflexivity|]. split; [exact Ha|]. split; [reflexivity|].
  assert (0 < inject_Z (Car.v_max car0))%Q as Hpos
    by (change 0%Q with (inject_Z 0); rewrite <- Zlt_Qlt; lia).
  assert (0 <= a / inject_Z (Car.v_max car0) <= 1)%Q as Hr.
  { split.
    - apply Qle_shift_div_l; [assumption | lra].
    - apply Qle_shift_div_r; [assumption | lra]. }
  split; [lra | exact Hvar].
Qed.

(** X19. The frames of the animation.  For histories of [max_time >= 0]
    entries, every frame drawn is an index into the histories, there are
    at most 399 frames, and below 400 entries every entry is a frame. *)
Theorem animation_frames_in_range (max_time : Z) :
  0 <= max_time ->
  Forall (fun frame => 0 <= frame < max_time) (Analysis.animation_frames max_time) /\
  (length (Analysis.animation_frames max_time) <= 399)%nat /\
  (max_time < 400 -> Analysis.animation_frames max_time = py_range max_time).
Proof.
  intros HT. unfold Analysis.animation_frames.
  set (s := Z.max 1 (max_time / 200)).
  assert (1 <= s) as Hs by (unfold s; lia).
  assert (max_time < 200 * s + 200) as Hub.
  { pose proof (Z.mod_pos_bound max_time 200 ltac:(lia)).
    pose proof (Z.div_mod max_time 200 ltac:(lia)). unfold s. lia. }
  set (count := (max_time + s - 1) / s).
  assert (0 <= count /\ (count - 1) * s < max_time /\ count < 400) as (Hc0 & Hc1 & Hc2).
  { pose proof (Z.mod_pos_bound (max_time + s - 1) s ltac:(lia)).
    pose proof (Z.div_mod (max_time + s - 1) s ltac:(lia)).
    fold count in H0. split; [|split]; nia. }
  split; [|split].
  - apply Forall_map. apply Forall_forall. intros i Hi. apply in_seq in Hi.
    assert (Z.of_nat i <= count - 1) by lia. nia.
  - rewrite length_map, length_seq. lia.
  - intros Hsmall.
    assert (s = 1) as ->.
    { unfold s. assert (max_time / 200 <= 1); [|lia].
      apply Z.lt_succ_r. apply Z.div_lt_upper_bound; lia. }
    unfold py_range, count.
    replace ((max_time + 1 - 1) / 1) with max_time by (rewrite Z.div_1_r; lia).
    apply map_ext. intros i. lia.
Qed.

(** ** The properties above on concrete inputs *)

Lemma toy_rand_unit : RandInUnitInterval Z.
Proof.
  intros g. simpl. unfold Toy.toy_rand, Toy.next, Toy.modulus. cbn [fst].
  pose proof (Z.mod_pos_bound (1664525 * g + 1013904223) (2 ^ 32) ltac:(lia)) as Hb.
  unfold Qle, Qlt. cbn [Qnum Qden]. split; lia.
Qed.

Definition road3 : Road.t :=
  Road.mk 10 3 0 [Car.init 7 5 1 (3 # 10); Car.init 2 5 1 (3 # 10);
                  Car.init 4 5 1 (3 # 10)] [] [] [] None.

Lemma reset_then_updates_history_witness :
  exists c' g',
    drive (reset_history (Car.mk 8 2 5 1 (3 # 10) [2; 2] [6; 8])) [3; 1] 10 7
    = Ok (c', g') /\
    length (Car.velocity_history c') = 2%nat.
Proof.
  destruct (reset_then_updates_history (Car.mk 8 2 5 1 (3 # 10) [2; 2] [6; 8])
              [3; 1] 10 7 ltac:(lia))
    as (c' & g' & Hrun & Hv & _).
  exists c', g'. split; [exact Hrun | exact Hv].
Defined.

Lemma free_flow_velocity_witness :
  exists c' g',
    drive (Car.init 0 3 1 0) [100; 100; 100; 100] 1000 7 = Ok (c', g') /\
    Car.velocity c' = 3 /\
    Car.velocity_history c' = [1; 2; 3; 3].
Proof.
  exact (@free_flow_velocity Z _ toy_rand_unit (Car.init 0 3 1 0)
           [100; 100; 100; 100] 1000 7
           ltac:(lia) ltac:(simpl; apply Qle_refl) ltac:(simpl; lia)
           ltac:(simpl; lia) ltac:(repeat constructor)).
Defined.

Lemma car_without_room_stays_witness :
  exists c' g',
    Car.update (Car.mk 4 3 5 1 (3 # 10) [] []) 1 10 7 = Ok (c', g') /\
    Car.velocity c' = 0 /\ Car.position c' = 4.
Proof.
  exact (car_without_room_stays (Car.mk 4 3 5 1 (3 # 10) [] []) 1 10 7
           ltac:(unfold car_ok; simpl; lia) ltac:(left; lia)).
Defined.

Lemma ticks_bookkeeping_witness :
  exists r' g',
    iterM 4 Road.step road3 7 = Ok (r', g') /\
    Road.time r' = 4 /\ length (Road.cars r') = 3%nat.
Proof.
  destruct (ticks_bookkeeping road3 7 4 ltac:(simpl; lia))
    as (r' & g' & Hrun & Ht & _ & _ & Hc & _).
  exists r', g'. split; [exact Hrun|]. split; [exact Ht | exact Hc].
Defined.

Lemma ticks_car_histories_witness :
  exists r' g',
    iterM 4 Road.step road3 7 = Ok (r', g') /\
    Forall (fun c => histories_of_length 4 c /\ (4%nat <> O -> histories_current c))
           (Road.cars r').
Proof.
  exact (ticks_car_histories road3 7 0 4 ltac:(simpl; lia)
           ltac:(repeat constructor)).
Defined.

Lemma snapshot_after_tick_witness :
  exists r' g' st,
    Road.step road3 7 = Ok (r', g') /\ get_state r' = Ok st /\
    State.time st = 1 /\
    State.flow st = fmul (State.density st) (State.avg_velocity st).
Proof.
  destruct (snapshot_after_tick road3 7 ltac:(simpl; lia))
    as (r' & g' & st & Hstep & Hst & Ht & _ & _ & _ & _ & Hf).
  exists r', g', st. auto.
Defined.

Definition incident_road : Road.t :=
  Road.introduce_accident
    (Road.mk 100 2 0 [Car.mk 50 3 5 1 0 [] []; Car.mk 90 2 5 1 0 [] []]
             [] [] [] None)
    50 10.

Lemma incident_cars_creep_witness :
  exists r' g',
    Road.step incident_road 7 = Ok (r', g') /\
    map Car.position (Road.cars r') = [51; 93] /\
    Forall2 (fun cd c' =>
               circular_distance 100 50 (fst cd) < 20 ->
               (Car.brake_prob (fst cd) <= 0)%Q ->
               1 <= Car.acceleration (fst cd) -> 1 <= Car.v_max (fst cd) ->
               2 <= snd cd ->
               1 <= Car.velocity c' /\ Car.position c' <> Car.position (fst cd))
            [(Car.mk 50 0 5 1 0 [] [], 40); (Car.mk 90 2 5 1 0 [] [], 60)]
            (Road.cars r').
Proof.
  destruct (@incident_cars_creep Z _ toy_rand_unit incident_road 7
              (Road.mk_accident 50 10 0) ltac:(simpl; lia) eq_refl
              ltac:(simpl; lia) ltac:(repeat constructor; simpl; lia))
    as (r' & g' & Hstep & Hall).
  exists r', g'. split; [exact Hstep|]. split.
  - assert (Road.step incident_road 7 = Ok (fst (step_spec incident_road 7),
                                            snd (step_spec incident_road 7))) as E
      by (rewrite step_run by (simpl; lia); now destruct (step_spec incident_road 7)).
    rewrite E in Hstep. injection Hstep as <- _. vm_compute. reflexivity.
  - eapply Forall2_impl; [|exact Hall].
    intros cd c' Hcd Hnear Hb Ha Hm Hd.
    destruct (Hcd Hnear) as (_ & _ & _ & Hmove).
    destruct (Hmove Hb) as (_ & Hgo). now apply Hgo.
Defined.

Lemma full_road_is_frozen_witness :
  exists r' g',
    Road.step (Road.mk 3 3 0 [Car.init 2 5 1 (3 # 10); Car.init 0 5 1 (3 # 10);
                              Car.init 1 5 1 (3 # 10)] [] [] [] None) 7
    = Ok (r', g') /\
    Forall (fun c => Car.velocity c = 0) (Road.cars r') /\
    map Car.position (Road.cars r') = [0; 1; 2].
Proof.
  exact (full_road_is_frozen
           (Road.mk 3 3 0 [Car.init 2 5 1 (3 # 10); Car.init 0 5 1 (3 # 10);
                           Car.init 1 5 1 (3 # 10)] [] [] [] None) 7
           ltac:(simpl; lia)
           ltac:(repeat constructor; simpl; lia)
           ltac:(repeat constructor; simpl; intuition lia)
           eq_refl).
Defined.

Lemma run_simulation_shape_witness :
  exists road g',
    Simulation.run_simulation 5 10 3 5 (3 # 10) (Some 42) 7 = Ok (road, g') /\
    Road.time road = 5 /\ length (Road.cars road) = 3%nat.
Proof.
  destruct (@run_simulation_shape Z _ toy_contract 5 10 3 5 (3 # 10) (Some 42) 7
              ltac:(lia) ltac:(lia) ltac:(intros s [= <-]; lia))
    as (road & g' & Hrun & Ht & _ & _ & Hc & _).
  exists road, g'. split; [exact Hrun|]. split; [exact Ht | exact Hc].
Defined.

Lemma accident_experiment_result_witness :
  exists road g',
    run_accident_experiment 8 3 4 100 5 5 (3 # 10) 7 = Ok (road, g') /\
    Road.time road = 8 /\
    Road.incident road = Some (Road.mk_accident 50 4 4).
Proof.
  destruct (@accident_experiment_result Z _ toy_contract 8 3 4 100 5 5 (3 # 10) 7
              ltac:(lia) ltac:(lia) ltac:(lia))
    as (road & g' & Hrun & _ & Ht & _ & Hinc & _).
  exists road, g'. split; [apply Hrun|]. split; [apply Ht; lia | exact Hinc].
Defined.

Lemma monte_carlo_aligned_witness :
  exists rows g',
    run_monte_carlo 3 4 10 3 5 (3 # 10) 7
    = inr (mk_monte_carlo (map fst rows) (map snd rows)
                          (map (fun r => last (fst r) NaN) rows) 3, g') /\
    length rows = 3%nat.
Proof.
  destruct (@monte_carlo_aligned Z _ toy_contract 3 4 10 3 5 (3 # 10) 7
              ltac:(lia) ltac:(lia) ltac:(lia) ltac:(lia))
    as (rows & g' & Hrun & Hlen & _).
  exists rows, g'. split; [exact Hrun | exact Hlen].
Defined.

Lemma monte_carlo_edges_witness :
  run_monte_carlo 3 0 10 3 5 (3 # 10) 7 = inl IndexError.
Proof.
  exact (proj1 (@monte_carlo_edges Z _ toy_contract 3 0 10 3 5 (3 # 10) 7)
               ltac:(lia) ltac:(lia) ltac:(lia) ltac:(lia)).
Defined.

Lemma run_histories_bounded_witness :
  exists road g',
    Simulation.run_simulation 5 10 3 5 (3 # 10) (Some 42) 7 = Ok (road, g') /\
    Forall (within 0 (inject_Z 5)) (Road.avg_velocity_history road).
Proof.
  destruct (@run_histories_bounded Z _ toy_contract 5 10 3 5 (3 # 10) (Some 42) 7
              ltac:(lia) ltac:(lia) ltac:(lia) ltac:(intros s [= <-]; lia))
    as (road & g' & Hrun & Ha & _).
  exists road, g'. split; [exact Hrun | exact Ha].
Defined.

Definition measured_road : Road.t :=
  Road.mk 10 2 3 [Car.mk 3 1 5 1 (3 # 10) [] []; Car.mk 7 2 5 1 (3 # 10) [] []]
          [Fin 1; Fin 2; Fin (3 # 2)] [] [] None.

Lemma congestion_metrics_bounds_witness :
  exists a ci var,
    Analysis.analyze_congestion_metrics measured_road 1
    = inr (Analysis.mk_metrics (Fin a) (Analysis.Num (Fin ci)) (Fin var)) /\
    (0 <= ci <= 1)%Q.
Proof.
  destruct (congestion_metrics_bounds measured_road 1
              (Car.mk 3 1 5 1 (3 # 10) [] []) [Car.mk 7 2 5 1 (3 # 10) [] []]
              eq_refl ltac:(simpl; lia) ltac:(simpl; lia)
              ltac:(discriminate)
              ltac:(repeat constructor; eexists; (split; [reflexivity|]);
                    split; unfold Qle; simpl; lia))
    as (a & ci & var & Hrun & _ & _ & Hci & _).
  exists a, ci, var. split; [exact Hrun | exact Hci].
Defined.

Lemma animation_frames_in_range_witness :
  (length (Analysis.animation_frames 399) <= 399)%nat /\
  Analysis.animation_frames 399 = py_range 399.
Proof.
  destruct (animation_frames_in_range 399 ltac:(lia)) as (_ & Hlen & Hall).
  split; [exact Hlen | apply Hall; lia].
Defined.

(** ** No collision, ever *)

(** Every car is within its bounds and no two cars share a cell. *)
Definition collision_free (r : Road.t) : Prop :=
  Forall (car_ok (Road.length r)) (Road.cars r) /\
  NoDup (map Car.position (Road.cars r)).

(** [np.random.choice(range(stop), size, replace=False)] returns distinct
    elements of the range. *)
Class ChoiceWithoutReplacement (rng : Type) `{NumPy rng} : Prop :=
  choice_distinct_in_range :
    forall stop size g l g',
      np_random_choice_range stop size g = Ok (l, g') ->
      NoDup l /\ Forall (fun p => 0 <= p < stop) l.

Section CollisionFree.
Context {rng : Type} `{NumPy rng}.

Lemma step_spec_collision_free (r : Road.t) (g : rng) :
  0 < Road.length r -> collision_free r -> collision_free (fst (step_spec r g)).
Proof.
  intros HL (Hok & Hnd). split.
  - rewrite step_spec_length.
    apply step_spec_Forall with (P := car_ok (Road.length r)); [| |assumption].
    + intros c (Hv & Hp & Ha). unfold car_ok. simpl. lia.
    + intros c d u Hc. now apply update_spec_bounds.
  - destruct (override_frame r) as (_ & _ & _ & _ & _ & _ & Epos).
    pose proof (override_bounds r Hok) as Hok1.
    set (s := sort_by Car.position (Road.cars (Road._apply_accident_effects r))).
    pose proof (sort_by_perm Car.position
                  (Road.cars (Road._apply_accident_effects r))) as Hperm.
    fold s in Hperm.
    assert (Forall (car_ok (Road.length r)) s) as Hoks.
    { rewrite Forall_forall in *. intros c Hc. apply Hok1.
      eapply Permutation_in; [symmetry; exact Hperm | exact Hc]. }
    assert (StronglySorted Z.lt (map Car.position s)) as Hsorted.
    { apply strictly_sorted; [apply sorted_positions, sort_by_sorted|].
      eapply Permutation_NoDup; [apply Permutation_map; exact Hperm|].
      now rewrite Epos. }
    assert (Forall (fun p => 0 <= p < Road.length r) (map Car.position s)) as Hrange0.
    { apply Forall_map. eapply Forall_impl; [|exact Hoks].
      intros c (_ & Hp & _). exact Hp. }
    destruct (sorted_ring_range _ _ Hsorted Hrange0) as (Hfirst & Hrange).
    pose proof (update_all_spec_Forall2
                  (combine s (gaps_by_index (Road.length r) (map Car.position s)))
                  (Road.length r) g) as Hupd.
    apply cars_advanced in Hupd; [|assumption].
    rewrite gaps_by_index_ring in Hupd.
    unfold step_spec. cbn [fst Road.cars]. fold s. rewrite gaps_by_index_ring.
    exact (proj1 (ring_advance _ _ HL Hfirst _ _ Hsorted Hrange Hupd)).
Qed.

Lemma run_spec_collision_free (k : nat) (r : Road.t) (g : rng) :
  0 < Road.length r -> collision_free r -> collision_free (fst (run_spec k r g)).
Proof.
  revert r g. induction k as [|k IH]; intros r g HL Hfree; [exact Hfree|].
  cbn [run_spec]. apply IH; [now rewrite step_spec_length|].
  now apply step_spec_collision_free.
Qed.

(** X20. No collision, ever.  On a road of positive length whose cars
    are within their bounds and on pairwise distinct cells, any number of
    ticks, with or without incidents and whatever is drawn, leaves the
    cars within their bounds and on pairwise distinct cells. *)
Theorem ticks_collision_free (r : Road.t) (g : rng) (k : nat) :
  0 < Road.length r ->
  collision_free r ->
  exists r' g',
    iterM k Road.step r g = Ok (r', g') /\ collision_free r'.
Proof.
  intros HL Hfree.
  exists (fst (run_spec k r g)), (snd (run_spec k r g)).
  rewrite iter_step_run by lia.
  split; [now destruct (run_spec k r g) | now apply run_spec_collision_free].
Qed.

Lemma fresh_road_collision_free (L n v_max : Z) (brake_prob : Q) (sample : list Z) :
  0 <= v_max -> NoDup sample -> Forall (fun p => 0 <= p < L) sample ->
  collision_free (fresh_road L n v_max brake_prob sample).
Proof.
  intros Hmax Hnd Hrange.
  pose proof (sort_by_perm (fun x => x) sample) as Hperm. fold (sorted sample) in Hperm.
  unfold collision_free, fresh_road. cbn [Road.cars Road.length]. split.
  - apply Forall_map. rewrite Forall_forall in *. intros p Hp.
    assert (0 <= p < L)
      by (apply Hrange; eapply Permutation_in; [symmetry; exact Hperm | exact Hp]).
    unfold car_ok. simpl. lia.
  - rewrite map_map. cbn [Car.init Car.position]. rewrite map_id.
    eapply Permutation_NoDup; [exact Hperm | exact Hnd].
Qed.

(** X21. A run never has a collision.  A single run of a valid
    configuration with a [v_max] that is not negative ends, after any
    number of steps, with every car within its bounds and no two cars on
    the same cell. *)
Theorem run_collision_free `{!NumPyContract rng} `{!ChoiceWithoutReplacement rng}
    (n_steps road_length n_cars v_max : Z) (brake_prob : Q) (seed : option Z)
    (g : rng) :
  0 < road_length ->
  0 <= n_cars <= road_length ->
  0 <= v_max ->
  (forall s, seed = Some s -> 0 <= s < 2 ^ 32) ->
  exists road g',
    Simulation.run_simulation n_steps road_length n_cars v_max brake_prob seed g
      = Ok (road, g') /\
    Road.length road = road_length /\
    collision_free road.
Proof.
  intros HL Hn Hmax Hseed.
  destruct (seed_step seed g Hseed) as (g1 & Hs).
  destruct (choice_returns road_length n_cars g1 ltac:(lia)) as (l & g2 & Hc & _).
  destruct (choice_distinct_in_range _ _ _ _ _ Hc) as (Hnd & Hrange).
  set (r0 := fresh_road road_length n_cars v_max brake_prob l).
  exists (fst (run_spec (Z.to_nat n_steps) r0 g2)),
         (snd (run_spec (Z.to_nat n_steps) r0 g2)).
  split; [|split].
  - unfold Simulation.run_simulation, bind. rewrite Hs.
    unfold Road.init, bind. rewrite Hc. unfold ret. fold r0.
    rewrite iter_step_run by (simpl; lia). now destruct (run_spec _ _ _).
  - now rewrite run_spec_length.
  - apply run_spec_collision_free; [simpl; lia|].
    now apply fresh_road_collision_free.
Qed.

End CollisionFree.

Lemma toy_choice_distinct : ChoiceWithoutReplacement Z.
Proof.
  intros stop size g l g'. simpl. unfold Toy.toy_choice.
  destruct (Z.ltb_spec size 0); [discriminate|].
  destruct (Z.ltb_spec (Z.max stop 0) size); [discriminate|].
  intros [= <- _].
  assert (forall x, In x (py_range size) -> 0 <= x < stop) as Hin
    by (intros x Hx; apply py_range_In in Hx; lia).
  split.
  - apply NoDup_map_NoDup_ForallPairs.
    + intros x y Hx Hy E. apply Hin in Hx, Hy.
      pose proof (Z.div_mod (Toy.next g + x) stop ltac:(lia)) as Dx.
      pose proof (Z.div_mod (Toy.next g + y) stop ltac:(lia)) as Dy.
      cbv beta in E. rewrite E in Dx.
      set (q1 := (Toy.next g + x) / stop) in *.
      set (q2 := (Toy.next g + y) / stop) in *.
      assert (x - y = stop * (q1 - q2)) as Hd by lia.
      assert (q1 - q2 = 0) by nia. lia.
    + unfold py_range. apply NoDup_map_NoDup_ForallPairs; [|apply seq_NoDup].
      intros a b _ _. apply Nat2Z.inj.
  - apply Forall_map. apply Forall_forall. intros x Hx. apply Hin in Hx.
    apply Z.mod_pos_bound. lia.
Qed.

Lemma ticks_collision_free_witness :
  exists r' g', iterM 6 Road.step road3 7 = Ok (r', g') /\ collision_free r'.
Proof.
  exact (ticks_collision_free road3 7 6 ltac:(simpl; lia)
           ltac:(unfold collision_free, road3; simpl; split;
                 repeat constructor; simpl; intuition lia)).
Defined.

Lemma run_collision_free_witness :
  exists road g',
    Simulation.run_simulation 6 10 4 5 (3 # 10) (Some 42) 7 = Ok (road, g') /\
    Road.length road = 10 /\ collision_free road.
Proof.
  exact (@run_collision_free Z _ toy_contract toy_choice_distinct
           6 10 4 5 (3 # 10) (Some 42) 7
           ltac:(lia) ltac:(lia) ltac:(lia) ltac:(intros s [= <-]; lia)).
Defined.

(** ** The density scan at the edges *)



Section ScanEdges.
Context {rng : Type} `{NumPyContract rng}.



End ScanEdges.

